(** * Voi: the audio path of services/geminiService.ts

    A shallow embedding of the byte-level audio code of the Voice Clone
    Studio client: the base64 helpers [decode] and [encode], the float to
    16-bit PCM conversion of [createBlob], the WAV writer [pcmToWav] and
    the callbacks that [generateAudioFromText] registers on the live
    session.  JavaScript numbers that are integers are values of [Z],
    strings are lists of UTF-16 code units, a [Uint8Array] is a list of
    bytes, and code that can throw returns a [result]. *)

From Stdlib Require Import ZArith List String Ascii Bool Lia.
From Stdlib Require Import Strings.Byte.
From Stdlib Require Floats.SpecFloat.
Import ListNotations.
Local Open Scope Z_scope.

(** ** JavaScript values *)

Module JS.

(** The exceptions the modelled code can raise. *)
Inductive exn : Type :=
| InvalidCharacterError   (* DOMException of atob and btoa *)
| TypeError               (* property read on undefined *)
| RangeError.             (* write outside a buffer *)

Inductive result (A : Type) : Type :=
| Ok (a : A)
| Throw (e : exn).
Arguments Ok {A} a.
Arguments Throw {A} e.

Definition bind {A B : Type} (r : result A) (k : A -> result B) : result B :=
  match r with
  | Ok a => k a
  | Throw e => Throw e
  end.

(** A string is its sequence of UTF-16 code units. *)
Definition jsstring : Type := list Z.

(** The code units of a literal of the source. *)
Definition lit (s : string) : jsstring :=
  map (fun a => Z.of_N (N_of_ascii a)) (list_ascii_of_string s).

(** The numeric value of an element of a [Uint8Array]. *)
Definition byte_val (b : byte) : Z := Z.of_N (Byte.to_N b).

(** Storing a number into a [Uint8Array] element, or through
    [DataView.setUint8], keeps it modulo 256 (ToUint8). *)
Definition u8 (z : Z) : byte :=
  match Byte.of_N (Z.to_N (z mod 256)) with
  | Some b => b
  | None => x00
  end.

End JS.
Export JS.

Declare Scope js_scope.
Notation "x <- r ;; k" := (bind r (fun x => k))
  (at level 61, r at next level, right associativity) : js_scope.
Local Open Scope js_scope.

(** ** The platform's atob and btoa

    Both are browser functions; they are modelled after the
    forgiving-base64 decode and encode algorithms of the WHATWG Infra
    Standard, which the HTML Standard prescribes for them. *)

Module Base64.

Definition alphabet : string :=
  "ABCDEFGHIJKLMNOPQRSTUVWXYZabcdefghijklmnopqrstuvwxyz0123456789+/".

Definition pad : Z := 61.  (* "=" *)

(** The character of a 6-bit group. *)
Definition char_of_sextet (v : Z) : Z :=
  match String.get (Z.to_nat v) alphabet with
  | Some a => Z.of_N (N_of_ascii a)
  | None => pad
  end.

(** The 6-bit group of a character of the alphabet. *)
Definition sextet_of_char (c : Z) : option Z :=
  if (65 <=? c) && (c <=? 90) then Some (c - 65)
  else if (97 <=? c) && (c <=? 122) then Some (c - 97 + 26)
  else if (48 <=? c) && (c <=? 57) then Some (c - 48 + 52)
  else if c =? 43 then Some 62
  else if c =? 47 then Some 63
  else None.

(** RFC 4648 encoding with padding: three bytes give four characters. *)
Fixpoint encode_bytes (bs : list byte) : jsstring :=
  match bs with
  | [] => []
  | [a] =>
      let a := byte_val a in
      [char_of_sextet (a / 4); char_of_sextet (a mod 4 * 16); pad; pad]
  | [a; b] =>
      let a := byte_val a in
      let b := byte_val b in
      [char_of_sextet (a / 4); char_of_sextet (a mod 4 * 16 + b / 16);
       char_of_sextet (b mod 16 * 4); pad]
  | a :: b :: c :: rest =>
      let a := byte_val a in
      let b := byte_val b in
      let c := byte_val c in
      char_of_sextet (a / 4) :: char_of_sextet (a mod 4 * 16 + b / 16)
      :: char_of_sextet (b mod 16 * 4 + c / 64) :: char_of_sextet (c mod 64)
      :: encode_bytes rest
  end.

(** btoa: a code unit above U+00FF is an InvalidCharacterError; otherwise
    the code units are the bytes to encode. *)
Definition btoa (s : jsstring) : result jsstring :=
  if forallb (fun c => (0 <=? c) && (c <=? 255)) s
  then Ok (encode_bytes (map u8 s))
  else Throw InvalidCharacterError.

(** TAB, LF, FF, CR and SPACE. *)
Definition is_ascii_whitespace (c : Z) : bool :=
  (c =? 9) || (c =? 10) || (c =? 12) || (c =? 13) || (c =? 32).

(** One or two trailing "=" are removed. *)
Definition strip_padding (d : jsstring) : jsstring :=
  match rev d with
  | p :: q :: r =>
      if p =? pad then (if q =? pad then rev r else rev (q :: r)) else d
  | [p] => if p =? pad then [] else d
  | [] => d
  end.

(** Every character must belong to the alphabet. *)
Fixpoint sextets (d : jsstring) : option (list Z) :=
  match d with
  | [] => Some []
  | c :: r =>
      match sextet_of_char c, sextets r with
      | Some v, Some vs => Some (v :: vs)
      | _, _ => None
      end
  end.

(** 24 buffered bits are three bytes; 12 left over bits give one byte and
    18 give two, the low 4 and 2 bits being discarded. *)
Fixpoint decode_sextets (vs : list Z) : list byte :=
  match vs with
  | s1 :: s2 :: s3 :: s4 :: rest =>
      u8 (s1 * 4 + s2 / 16) :: u8 (s2 mod 16 * 16 + s3 / 4)
      :: u8 (s3 mod 4 * 64 + s4) :: decode_sextets rest
  | [s1; s2; s3] => [u8 (s1 * 4 + s2 / 16); u8 (s2 mod 16 * 16 + s3 / 4)]
  | [s1; s2] => [u8 (s1 * 4 + s2 / 16)]
  | _ => []
  end.

(** atob: forgiving-base64 decode, the bytes returned as a string of code
    units below 256. *)
Definition atob (s : jsstring) : result jsstring :=
  let d := filter (fun c => negb (is_ascii_whitespace c)) s in
  let d := if Z.of_nat (List.length d) mod 4 =? 0 then strip_padding d else d in
  if Z.of_nat (List.length d) mod 4 =? 1 then Throw InvalidCharacterError
  else
    match sextets d with
    | Some vs => Ok (map byte_val (decode_sextets vs))
    | None => Throw InvalidCharacterError
    end.

End Base64.
Export Base64.

(** ** decode and encode *)

(** [decode]: the string of atob, its code units stored one by one into a
    fresh [Uint8Array]; an exception of atob propagates. *)
Definition decode (base64 : jsstring) : result (list byte) :=
  binaryString <- atob base64 ;;
  Ok (map u8 binaryString).

(** [encode]: the loop appends [String.fromCharCode(bytes[i])] to [binary]
    for each index in turn, and the result is given to btoa. *)
Definition encode (bytes : list byte) : result jsstring :=
  let binary := fold_left (fun binary b => binary ++ [byte_val b]) bytes [] in
  btoa binary.

(** ** Numbers of a Float32Array and the Int16Array store *)

Module Float.

(** An IEEE 754 value: not-a-number, an infinity, or the finite number
    [m * 2^e].  The two zeros are not told apart: nothing below depends
    on the sign of a zero.

    The samples come out of a [Float32Array], so [Z.abs m < 2^24] and
    [-149 <= e] hold for them ([is_float32]); [createBlob] multiplies
    such a number, clamped to [-1, 1], by 32767 < 2^15.  The product has
    a significand below 2^39 and an exponent of at least -149: it is a
    binary64 number ([clamped_product_binary64]), and on such operands
    the binary64 multiplication returns the product unrounded
    ([mul_binary64_exact], against [SpecFloat.SFmul]).  The arithmetic
    is therefore written exactly. *)
Inductive float : Type :=
| NaN
| Inf (negative : bool)
| Fin (m e : Z).

Definition of_Z (z : Z) : float := Fin z 0.

Definition is_float32 (x : float) : Prop :=
  match x with
  | Fin m e => Z.abs m < 2 ^ 24 /\ -149 <= e <= 104
  | _ => True
  end.

Definition is_binary64 (x : float) : Prop :=
  match x with
  | Fin m e => Z.abs m < 2 ^ 53 /\ -1074 <= e <= 971
  | _ => True
  end.

(** [m1 * 2^e1] against [m2 * 2^e2], on a common exponent. *)
Definition compare_fin (m1 e1 m2 e2 : Z) : comparison :=
  let e := Z.min e1 e2 in
  (m1 * 2 ^ (e1 - e)) ?= (m2 * 2 ^ (e2 - e)).

(** The operator [<]; false when an operand is not a number. *)
Definition ltb (a b : float) : bool :=
  match a, b with
  | NaN, _ | _, NaN => false
  | Inf true, Inf true => false
  | Inf true, _ => true
  | _, Inf true => false
  | Inf false, _ => false
  | _, Inf false => true
  | Fin m1 e1, Fin m2 e2 =>
      match compare_fin m1 e1 m2 e2 with Lt => true | _ => false end
  end.

(** [Math.min] and [Math.max] of two arguments: not-a-number when either
    argument is, otherwise the smaller (the larger) of the two. *)
Definition Math_min (a b : float) : float :=
  match a, b with
  | NaN, _ | _, NaN => NaN
  | _, _ => if ltb b a then b else a
  end.

Definition Math_max (a b : float) : float :=
  match a, b with
  | NaN, _ | _, NaN => NaN
  | _, _ => if ltb a b then b else a
  end.

(** The operator [*]. *)
Definition mul (a b : float) : float :=
  match a, b with
  | NaN, _ | _, NaN => NaN
  | Inf s, Inf t => Inf (xorb s t)
  | Inf s, Fin m _ | Fin m _, Inf s =>
      if m =? 0 then NaN else Inf (xorb s (m <? 0))
  | Fin m1 e1, Fin m2 e2 => Fin (m1 * m2) (e1 + e2)
  end.

(** The integral part of [m * 2^e], rounding toward zero. *)
Definition truncate (m e : Z) : Z :=
  if 0 <=? e then m * 2 ^ e else Z.quot m (2 ^ (- e)).

(** ToInt16, applied when a number is stored into an [Int16Array]:
    not-a-number and the infinities give 0; a finite number is
    truncated, reduced modulo 2^16 and read as a signed 16-bit value. *)
Definition ToInt16 (x : float) : Z :=
  match x with
  | NaN | Inf _ => 0
  | Fin m e =>
      let int16bit := truncate m e mod 65536 in
      if 32768 <=? int16bit then int16bit - 65536 else int16bit
  end.

(** The same value in the representation of the standard library's
    specification of IEEE 754 arithmetic; a zero is given as +0. *)
Definition to_spec_float (x : float) : SpecFloat.spec_float :=
  match x with
  | NaN => SpecFloat.S754_nan
  | Inf s => SpecFloat.S754_infinity s
  | Fin 0 _ => SpecFloat.S754_zero false
  | Fin (Zpos p) e => SpecFloat.S754_finite false p e
  | Fin (Zneg p) e => SpecFloat.S754_finite true p e
  end.

End Float.
Export Float.

(** ** createBlob *)

(** The two bytes of an [Int16Array] element as a [Uint8Array] over the
    same buffer shows them.  Typed arrays use the byte order of the host,
    which the parameter stands for. *)
Definition int16_bytes (littleEndian : bool) (v : Z) : list byte :=
  if littleEndian then [u8 v; u8 (v / 256)] else [u8 (v / 256); u8 v].

(** The value stored at [int16[i]]: the clamped sample times 32767,
    through ToInt16. *)
Definition pcm_sample (s : float) : Z :=
  ToInt16 (mul (Math_max (of_Z (-1)) (Math_min (of_Z 1) s)) (of_Z 32767)).

(** [new Uint8Array(int16.buffer)] once the loop has filled [int16]: the
    raw PCM bytes that [createBlob] hands to [encode]. *)
Definition pcm_bytes (littleEndian : bool) (data : list float) : list byte :=
  let int16 := map pcm_sample data in
  flat_map (int16_bytes littleEndian) int16.

(** The object literal that [createBlob] returns. *)
Record MediaBlob : Type := {
  media_data : jsstring;
  media_mimeType : jsstring
}.

Definition createBlob (littleEndian : bool) (data : list float)
  : result MediaBlob :=
  d <- encode (pcm_bytes littleEndian data) ;;
  Ok {| media_data := d; media_mimeType := lit "audio/pcm;rate=16000" |}.

(** ** DataView writes and pcmToWav *)

Module DataView.

(** Bytes [src] copied into [view] from [offset] on; a write that does
    not fit is a RangeError. *)
Definition write (view : list byte) (offset : nat) (src : list byte)
  : result (list byte) :=
  if (offset + List.length src <=? List.length view)%nat
  then Ok (firstn offset view ++ src
           ++ skipn (offset + List.length src) view)
  else Throw RangeError.

Definition setUint8 (view : list byte) (offset : nat) (v : Z) :=
  write view offset [u8 v].

(** The source passes [true] for [littleEndian] at every call: the low
    byte comes first.  The value is taken modulo 2^16, resp. 2^32. *)
Definition setUint16 (view : list byte) (offset : nat) (v : Z) :=
  write view offset [u8 v; u8 (v / 256)].

Definition setUint32 (view : list byte) (offset : nat) (v : Z) :=
  write view offset
        [u8 v; u8 (v / 256); u8 (v / 65536); u8 (v / 16777216)].

End DataView.
Export DataView.

(** [writeString]: one [setUint8] per code unit, at [offset + i]. *)
Fixpoint writeString (view : list byte) (offset : nat) (s : jsstring)
  : result (list byte) :=
  match s with
  | [] => Ok view
  | c :: rest =>
      view <- setUint8 view offset c ;;
      writeString view (S offset) rest
  end.

(** A [Blob]: its bytes and its media type. *)
Record Blob : Type := {
  blob_bytes : list byte;
  blob_type : jsstring
}.

Definition pcmToWav (pcmData : list byte) : result Blob :=
  let sampleRate := 24000 in
  let numChannels := 1 in
  let bitsPerSample := 16 in
  let byteRate := sampleRate * numChannels * bitsPerSample / 8 in
  let blockAlign := numChannels * bitsPerSample / 8 in
  let dataSize := List.length pcmData in
  let buffer := repeat x00 (44 + dataSize) in
  (* RIFF chunk descriptor *)
  view <- writeString buffer 0 (lit "RIFF") ;;
  view <- setUint32 view 4 (36 + Z.of_nat dataSize) ;;
  view <- writeString view 8 (lit "WAVE") ;;
  (* fmt sub-chunk *)
  view <- writeString view 12 (lit "fmt ") ;;
  view <- setUint32 view 16 16 ;;
  view <- setUint16 view 20 1 ;;
  view <- setUint16 view 22 numChannels ;;
  view <- setUint32 view 24 sampleRate ;;
  view <- setUint32 view 28 byteRate ;;
  view <- setUint16 view 32 blockAlign ;;
  view <- setUint16 view 34 bitsPerSample ;;
  (* data sub-chunk *)
  view <- writeString view 36 (lit "data") ;;
  view <- setUint32 view 40 (Z.of_nat dataSize) ;;
  (* new Uint8Array(buffer, 44).set(pcmData) *)
  view <- write view 44 pcmData ;;
  Ok {| blob_bytes := view; blob_type := lit "audio/wav" |}.

(** ** The live session of generateAudioFromText *)

Module Session.

(** The part of a [LiveServerMessage] that [onmessage] reads.  Every
    property is optional in the SDK's types; an absent one is [None]. *)
Record InlineData : Type := { data : option jsstring }.
Record Part : Type := { inlineData : option InlineData }.
Record Content : Type := { parts : option (list Part) }.
Record LiveServerContent : Type := {
  modelTurn : option Content;
  turnComplete : option bool
}.
Record LiveServerMessage : Type := {
  serverContent : option LiveServerContent
}.

(** How the promise of [generateAudioFromText] ends: [resolve] with the
    object URL of a blob (the URL stands for the blob it addresses), or
    [reject] with an [Error] of the given message. *)
Inductive outcome : Type :=
| Resolved (audioUrl : Blob)
| Rejected (message : jsstring).

(** What one request owns: the closure variable [audioChunks], the state
    of its promise, and what it has asked of the session. *)
Record request : Type := {
  audioChunks : list (list byte);
  settled : option outcome;
  sent : list MediaBlob;          (* session.sendRealtimeInput *)
  closeRequested : bool           (* session.close() *)
}.

Definition start : request :=
  {| audioChunks := []; settled := None; sent := []; closeRequested := false |}.

(** [resolve] and [reject] settle a promise once; later calls do
    nothing. *)
Definition settle (o : outcome) (r : request) : request :=
  match settled r with
  | Some _ => r
  | None =>
      {| audioChunks := audioChunks r; settled := Some o;
         sent := sent r; closeRequested := closeRequested r |}
  end.

Definition resolve (audioUrl : Blob) := settle (Resolved audioUrl).
Definition reject (message : jsstring) := settle (Rejected message).

Definition push (chunk : list byte) (r : request) : request :=
  {| audioChunks := audioChunks r ++ [chunk]; settled := settled r;
     sent := sent r; closeRequested := closeRequested r |}.

Definition sendRealtimeInput (media : MediaBlob) (r : request) : request :=
  {| audioChunks := audioChunks r; settled := settled r;
     sent := sent r ++ [media]; closeRequested := closeRequested r |}.

Definition close (r : request) : request :=
  {| audioChunks := audioChunks r; settled := settled r;
     sent := sent r; closeRequested := true |}.

(** [onopen]: 160 zero samples go through [createBlob] and are sent. *)
Definition onopen (littleEndian : bool) (r : request) : result request :=
  let silentAudioData := repeat (Fin 0 0) 160 in
  pcmBlob <- createBlob littleEndian silentAudioData ;;
  Ok (sendRealtimeInput pcmBlob r).

(** [message.serverContent?.modelTurn?.parts[0]?.inlineData?.data]:
    [?.] yields undefined on an absent object, the plain index [[0]]
    on an absent [parts] is a TypeError. *)
Definition base64Audio (message : LiveServerMessage)
  : result (option jsstring) :=
  match serverContent message with
  | None => Ok None
  | Some sc =>
      match modelTurn sc with
      | None => Ok None
      | Some mt =>
          match parts mt with
          | None => Throw TypeError
          | Some ps =>
              match nth_error ps 0 with
              | None => Ok None
              | Some p =>
                  match inlineData p with
                  | None => Ok None
                  | Some d => Ok (data d)
                  end
              end
          end
      end
  end.

(** [onmessage].  A string is truthy when it is not empty, undefined is
    falsy.  Each step that can throw comes before the first change to
    the request, so an exception leaves the request as it was. *)
Definition onmessage (message : LiveServerMessage) (r : request)
  : result request :=
  b <- base64Audio message ;;
  r <- match b with
       | Some (c :: s) =>
           decodedChunk <- decode (c :: s) ;;
           Ok (push decodedChunk r)
       | _ => Ok r
       end ;;
  match serverContent message with
  | Some {| turnComplete := Some true |} => Ok (close r)
  | _ => Ok r
  end.

(** The body of the [then] branch of [onclose] up to [pcmToWav]: the
    total length is summed with [reduce], a buffer of that length is
    allocated, and each chunk is copied at the running offset. *)
Definition fullAudio (audioChunks : list (list byte)) : result (list byte) :=
  let totalLength :=
    fold_left (fun acc chunk => (acc + List.length chunk)%nat) audioChunks 0%nat in
  let fullAudio := repeat x00 totalLength in
  r <- fold_left
         (fun st chunk =>
            st <- st ;;
            let '(fullAudio, offset) := st in
            fullAudio <- write fullAudio offset chunk ;;
            Ok (fullAudio, (offset + List.length chunk)%nat))
         audioChunks (Ok (fullAudio, 0%nat)) ;;
  Ok (fst r).

Definition no_audio_message : jsstring :=
  lit "No audio data was received from the API.".

Definition onclose (r : request) : result request :=
  if (0 <? List.length (audioChunks r))%nat
  then
    fullAudio <- fullAudio (audioChunks r) ;;
    audioBlob <- pcmToWav fullAudio ;;
    Ok (resolve audioBlob r)
  else Ok (reject no_audio_message r).

Definition onerror (e_message : jsstring) (r : request) : result request :=
  Ok (reject (lit "A connection error occurred: " ++ e_message) r).

(** What the session delivers to the callbacks. *)
Inductive event : Type :=
| Open
| Message (message : LiveServerMessage)
| Close
| Error (e_message : jsstring).

Definition callback (littleEndian : bool) (ev : event)
  : request -> result request :=
  match ev with
  | Open => onopen littleEndian
  | Message m => onmessage m
  | Close => onclose
  | Error msg => onerror msg
  end.

(** One delivery.  Nothing in the source handles an exception of a
    callback ([onmessage] is an async function whose promise nobody
    awaits): the request stays as it was and the exception is only
    recorded in the log returned beside it. *)
Definition deliver (littleEndian : bool) (st : request * list exn)
  (ev : event) : request * list exn :=
  match callback littleEndian ev (fst st) with
  | Ok r => (r, snd st)
  | Throw e => (fst st, snd st ++ [e])
  end.

Definition run (littleEndian : bool) (evs : list event)
  : request * list exn :=
  fold_left (deliver littleEndian) evs (start, []).

Definition missing_key_message : jsstring :=
  lit "Please provide your Gemini API key in index.html.".

(** [generateAudioFromText] against a session that delivers [evs]: the
    key is checked first, and without one no session is opened. *)
Definition generateAudioFromText (API_KEY : option jsstring)
  (littleEndian : bool) (evs : list event) : request * list exn :=
  match API_KEY with
  | Some (c :: k) =>
      if list_eq_dec Z.eq_dec (c :: k) (lit "YOUR_GEMINI_API_KEY")
      then (reject missing_key_message start, [])
      else run littleEndian evs
  | _ => (reject missing_key_message start, [])
  end.

(** A message that carries [s] as its audio payload. *)
Definition audio_message (s : jsstring) (done : option bool)
  : LiveServerMessage :=
  {| serverContent :=
       Some {| modelTurn :=
                 Some {| parts := Some [ {| inlineData := Some {| data := Some s |} |} ] |};
               turnComplete := done |} |}.

End Session.
Export Session.

(** ** The component of App.tsx

    The handlers of [App] as functions on the state of its [useState]
    hooks.  Each handler is taken to run against the state of the latest
    render, as React arranges for discrete events, and the setters it
    calls are applied together.  A [File] is represented by its name, an
    object URL by the blob it addresses. *)

Module App.

Record state : Type := {
  isAnalyzing : bool;
  isGenerating : bool;
  videoFile : option jsstring;
  voiceAnalyzed : bool;
  textToSpeak : jsstring;
  audioUrl : option Blob;
  error : option jsstring
}.

Definition initial : state :=
  {| isAnalyzing := false; isGenerating := false; videoFile := None;
     voiceAnalyzed := false; textToSpeak := []; audioUrl := None;
     error := None |}.

(** [handleFileChange], with [event.target.files?.[0]] as argument; the
    boolean tells whether the 2500 ms timer was started. *)
Definition handleFileChange (file : option jsstring) (st : state)
  : state * bool :=
  match file with
  | Some f =>
      ({| isAnalyzing := true; isGenerating := isGenerating st;
          videoFile := Some f; voiceAnalyzed := false;
          textToSpeak := textToSpeak st; audioUrl := None; error := None |},
       true)
  | None => (st, false)
  end.

(** The callback of that timer. *)
Definition analysisTimeout (st : state) : state :=
  {| isAnalyzing := false; isGenerating := isGenerating st;
     videoFile := videoFile st; voiceAnalyzed := true;
     textToSpeak := textToSpeak st; audioUrl := audioUrl st;
     error := error st |}.

Definition setTextToSpeak (v : jsstring) (st : state) : state :=
  {| isAnalyzing := isAnalyzing st; isGenerating := isGenerating st;
     videoFile := videoFile st; voiceAnalyzed := voiceAnalyzed st;
     textToSpeak := v; audioUrl := audioUrl st; error := error st |}.

Definition setError (e : option jsstring) (st : state) : state :=
  {| isAnalyzing := isAnalyzing st; isGenerating := isGenerating st;
     videoFile := videoFile st; voiceAnalyzed := voiceAnalyzed st;
     textToSpeak := textToSpeak st; audioUrl := audioUrl st; error := e |}.

Definition setAudioUrl (u : option Blob) (st : state) : state :=
  {| isAnalyzing := isAnalyzing st; isGenerating := isGenerating st;
     videoFile := videoFile st; voiceAnalyzed := voiceAnalyzed st;
     textToSpeak := textToSpeak st; audioUrl := u; error := error st |}.

Definition setIsGenerating (b : bool) (st : state) : state :=
  {| isAnalyzing := isAnalyzing st; isGenerating := b;
     videoFile := videoFile st; voiceAnalyzed := voiceAnalyzed st;
     textToSpeak := textToSpeak st; audioUrl := audioUrl st;
     error := error st |}.

(** The code units that [String.prototype.trim] removes: the WhiteSpace
    and LineTerminator code points of ECMAScript. *)
Definition is_white (c : Z) : bool :=
  ((9 <=? c) && (c <=? 13)) || (c =? 32) || (c =? 160) || (c =? 5760)
  || ((8192 <=? c) && (c <=? 8202)) || (c =? 8232) || (c =? 8233)
  || (c =? 8239) || (c =? 8287) || (c =? 12288) || (c =? 65279).

Fixpoint trimStart (s : jsstring) : jsstring :=
  match s with
  | c :: rest => if is_white c then trimStart rest else s
  | [] => []
  end.

Definition trim (s : jsstring) : jsstring :=
  rev (trimStart (rev (trimStart s))).

(** [handleGenerateAudio] up to its [await]: nothing happens when the
    trimmed text is empty or a generation is under way; otherwise the
    three setters are applied and [generateAudioFromText] is called,
    which the boolean reports. *)
Definition handleGenerateAudio (st : state) : state * bool :=
  match trim (textToSpeak st) with
  | [] => (st, false)
  | _ :: _ =>
      if isGenerating st then (st, false)
      else (setAudioUrl None (setError None (setIsGenerating true st)), true)
  end.

(** What a rejected promise carries: an [Error] with its message, or
    some other value. *)
Inductive thrown : Type :=
| ErrorObject (message : jsstring)
| OtherValue.

Inductive settlement : Type :=
| Fulfilled (url : Blob)
| Failed (err : thrown).

(** [handleGenerateAudio] after its [await]: the [try] continuation or
    the [catch] block, then [finally]. *)
Definition handleGenerateAudio_settled (s : settlement) (st : state)
  : state :=
  let st :=
    match s with
    | Fulfilled url => setAudioUrl (Some url) st
    | Failed err =>
        let errorMessage :=
          match err with
          | ErrorObject message => message
          | OtherValue => lit "An unknown error occurred."
          end in
        setError (Some (lit "Error generating audio: " ++ errorMessage)) st
    end in
  setIsGenerating false st.

(** How [generateAudioFromText] settles its promise: every rejection of
    the function carries an [Error]. *)
Definition settlement_of (o : outcome) : settlement :=
  match o with
  | Resolved audioUrl => Fulfilled audioUrl
  | Rejected message => Failed (ErrorObject message)
  end.

(** One run of [handleGenerateAudio] with no other handler in between,
    against a service that settles as [promise] ([None]: never). *)
Definition generate (promise : option outcome) (st : state) : state :=
  let '(st1, called) := handleGenerateAudio st in
  if called
  then match promise with
       | Some o => handleGenerateAudio_settled (settlement_of o) st1
       | None => st1
       end
  else st1.

(** The component with what is pending around it: the timers started
    and the calls of [generateAudioFromText] not yet settled. *)
Record ui : Type := {
  view : state;
  timers : nat;
  inflight : nat
}.

Inductive action : Type :=
| FileChange (file : option jsstring)
| TimerFires
| TextChange (v : jsstring)
| GenerateClick
| GenerateSettles (s : settlement)
| DismissError.

Definition act (u : ui) (a : action) : ui :=
  match a with
  | FileChange file =>
      let '(st, started) := handleFileChange file (view u) in
      {| view := st;
         timers := (timers u + if started then 1 else 0)%nat;
         inflight := inflight u |}
  | TimerFires =>
      match timers u with
      | O => u
      | S n =>
          {| view := analysisTimeout (view u); timers := n;
             inflight := inflight u |}
      end
  | TextChange v =>
      {| view := setTextToSpeak v (view u); timers := timers u;
         inflight := inflight u |}
  | GenerateClick =>
      let '(st, called) := handleGenerateAudio (view u) in
      {| view := st; timers := timers u;
         inflight := (inflight u + if called then 1 else 0)%nat |}
  | GenerateSettles s =>
      match inflight u with
      | O => u
      | S n =>
          {| view := handleGenerateAudio_settled s (view u);
             timers := timers u; inflight := n |}
      end
  | DismissError =>
      {| view := setError None (view u); timers := timers u;
         inflight := inflight u |}
  end.

(** What holds of the component after any actions. *)
Definition settled_invariant (u : ui) : Prop :=
  inflight u = (if isGenerating (view u) then 1 else 0)%nat
  /\ (isGenerating (view u) = true ->
      audioUrl (view u) = None /\ error (view u) = None)
  /\ (audioUrl (view u) = None \/ error (view u) = None).

Definition mounted : ui := {| view := initial; timers := 0; inflight := 0 |}.


(** [!textToSpeak.trim()] *)
Definition blank (s : jsstring) : bool :=
  match trim s with
  | [] => true
  | _ :: _ => false
  end.

(** What the rendered page lets the user do: the file input is
    [disabled={isAnalyzing}], the text area
    [disabled={!voiceAnalyzed || isGenerating}], the button
    [disabled={!voiceAnalyzed || isGenerating || !textToSpeak.trim()}],
    and the dismiss button exists while an error is shown.  Timers and
    settlements are not the user's. *)
Definition enabled (u : ui) (a : action) : bool :=
  let st := view u in
  match a with
  | FileChange _ => negb (isAnalyzing st)
  | TextChange _ => voiceAnalyzed st && negb (isGenerating st)
  | GenerateClick =>
      voiceAnalyzed st && negb (isGenerating st)
      && negb (blank (textToSpeak st))
  | DismissError => match error st with Some _ => true | None => false end
  | TimerFires | GenerateSettles _ => true
  end.

Definition step (u : ui) (a : action) : ui :=
  if enabled u a then act u a else u.

(** The component after [actions] attempted through the page. *)
Definition through_page (actions : list action) : ui :=
  fold_left step actions mounted.

(** What holds of the component when it is driven through the page. *)
Definition page_invariant (u : ui) : Prop :=
  let st := view u in
  timers u = (if isAnalyzing st then 1 else 0)%nat
  /\ (isAnalyzing st = true -> voiceAnalyzed st = false)
  /\ (isAnalyzing st = true \/ voiceAnalyzed st = true
       \/ isGenerating st = true \/ audioUrl st <> None
       \/ error st <> None ->
      videoFile st <> None)
  /\ (isGenerating st = true -> blank (textToSpeak st) = false).

End App.

(** ** The writer as the specification words it

    [toWav_spec] follows the layout table of the specification, with the
    three format values as arguments; it is compared with [pcmToWav]
    below. *)

Definition u16le (v : Z) : list byte := [u8 v; u8 (v / 256)].

Definition u32le (v : Z) : list byte :=
  [u8 v; u8 (v / 256); u8 (v / 65536); u8 (v / 16777216)].

Definition ascii_bytes (s : string) : list byte := map u8 (lit s).

Definition toWav_spec (pcmPayload : list byte)
  (sampleRate channels bitsPerSample : Z) : list byte :=
  let dataSize := Z.of_nat (List.length pcmPayload) in
  ascii_bytes "RIFF" ++ u32le (36 + dataSize) ++ ascii_bytes "WAVE"
  ++ ascii_bytes "fmt " ++ u32le 16 ++ u16le 1 ++ u16le channels
  ++ u32le sampleRate ++ u32le (sampleRate * channels * bitsPerSample / 8)
  ++ u16le (channels * bitsPerSample / 8) ++ u16le bitsPerSample
  ++ ascii_bytes "data" ++ u32le dataSize ++ pcmPayload.

(** Readers for stating what a buffer holds: the bytes from [offset] on,
    and the little-endian numbers they spell. *)
Definition slice (buf : list byte) (offset len : nat) : list byte :=
  firstn len (skipn offset buf).

Definition le_value (bs : list byte) : Z :=
  fold_right (fun b acc => byte_val b + 256 * acc) 0 bs.

Definition getUint16 (buf : list byte) (offset : nat) : Z :=
  le_value (slice buf offset 2).

Definition getUint32 (buf : list byte) (offset : nat) : Z :=
  le_value (slice buf offset 4).

(** The rows of the layout table, read back from a buffer. *)
Definition wav_layout (wav pcmPayload : list byte)
  (sampleRate channels bitsPerSample : Z) : Prop :=
  let dataSize := Z.of_nat (List.length pcmPayload) in
  slice wav 0 4 = ascii_bytes "RIFF"
  /\ getUint32 wav 4 = 36 + dataSize
  /\ slice wav 8 4 = ascii_bytes "WAVE"
  /\ slice wav 12 4 = ascii_bytes "fmt "
  /\ getUint32 wav 16 = 16
  /\ getUint16 wav 20 = 1
  /\ getUint16 wav 22 = channels
  /\ getUint32 wav 24 = sampleRate
  /\ getUint32 wav 28 = sampleRate * channels * bitsPerSample / 8
  /\ getUint16 wav 32 = channels * bitsPerSample / 8
  /\ getUint16 wav 34 = bitsPerSample
  /\ slice wav 36 4 = ascii_bytes "data"
  /\ getUint32 wav 40 = dataSize
  /\ skipn 44 wav = pcmPayload.

Definition wav_blob (bytes : list byte) : Blob :=
  {| blob_bytes := bytes; blob_type := lit "audio/wav" |}.

(** The audio payload field of a message, when the message has one. *)
Definition audio_payload (message : LiveServerMessage) : option jsstring :=
  match serverContent message with
  | Some {| modelTurn := Some {| parts := Some (p :: _) |} |} =>
      match inlineData p with
      | Some d => data d
      | None => None
      end
  | _ => None
  end.

(** A message makes [onmessage] decode a chunk when its payload is a
    non-empty string. *)
Definition carries_audio (message : LiveServerMessage) : bool :=
  match base64Audio message with
  | Ok (Some (_ :: _)) => true
  | _ => false
  end.

(** The events of a session that opens, delivers the base64 strings
    [msgs] in order, each with its turn-complete flag, and closes. *)
Definition chunk_session (msgs : list (jsstring * option bool)) : list event :=
  Open :: map (fun bd => Message (audio_message (fst bd) (snd bd))) msgs
  ++ [Close].

(** The deliveries of [evs] in order, from any state. *)
Definition feed (littleEndian : bool) (st : request * list exn)
  (evs : list event) : request * list exn :=
  fold_left (deliver littleEndian) evs st.

(** ** Auxiliary definitions of the proofs *)

(** The 6-bit groups of a byte sequence, without characters or padding. *)
Fixpoint sextets_of_bytes (bs : list byte) : list Z :=
  match bs with
  | [] => []
  | [a] => [byte_val a / 4; byte_val a mod 4 * 16]
  | [a; b] =>
      [byte_val a / 4; byte_val a mod 4 * 16 + byte_val b / 16;
       byte_val b mod 16 * 4]
  | a :: b :: c :: rest =>
      byte_val a / 4 :: byte_val a mod 4 * 16 + byte_val b / 16
      :: byte_val b mod 16 * 4 + byte_val c / 64 :: byte_val c mod 64
      :: sextets_of_bytes rest
  end.

(** The "=" that complete the last group of four characters. *)
Definition padding (bs : list byte) : jsstring :=
  match (List.length bs mod 3)%nat with
  | 1%nat => [pad; pad]
  | 2%nat => [pad]
  | _ => []
  end.

(** ** Readers and operations for stating further properties *)

(** The signed 16-bit numbers that a little-endian reader finds in a
    byte buffer, two bytes each. *)
Fixpoint int16_values (bs : list byte) : list Z :=
  match bs with
  | lo :: hi :: rest =>
      let v := byte_val lo + 256 * byte_val hi in
      (if 32768 <=? v then v - 65536 else v) :: int16_values rest
  | _ => []
  end.

(** The two bytes of every pair exchanged. *)
Fixpoint swap_pairs (bs : list byte) : list byte :=
  match bs with
  | a :: b :: rest => b :: a :: swap_pairs rest
  | _ => bs
  end.

(** The number of opposite sign. *)
Definition opp (x : float) : float :=
  match x with
  | NaN => NaN
  | Inf s => Inf (negb s)
  | Fin m e => Fin (- m) e
  end.

(** [a <= b] on numbers: neither is not-a-number and [b < a] fails. *)
Definition leb (a b : float) : bool :=
  match a, b with
  | NaN, _ | _, NaN => false
  | _, _ => negb (ltb b a)
  end.

(** The blob that [onopen] sends: the text of 320 zero bytes. *)
Definition priming : MediaBlob :=
  {| media_data := encode_bytes (repeat x00 320);
     media_mimeType := lit "audio/pcm;rate=16000" |}.

Definition is_open (ev : event) : bool :=
  match ev with Open => true | _ => false end.

(** [onmessage] throws on a message when the payload expression does, or
    when the payload is a non-empty string that [decode] refuses. *)
Definition throws (message : LiveServerMessage) : bool :=
  match base64Audio message with
  | Throw _ => true
  | Ok (Some (c :: s)) =>
      match decode (c :: s) with Throw _ => true | Ok _ => false end
  | Ok _ => false
  end.

(** A message whose turn-complete flag is set and on which [onmessage]
    reaches the test of that flag. *)
Definition completes_turn (ev : event) : bool :=
  match ev with
  | Message m =>
      match serverContent m with
      | Some {| turnComplete := Some true |} => negb (throws m)
      | _ => false
      end
  | _ => false
  end.

(** The chunk that [onmessage] appends for a message: the decoded
    payload when it is a non-empty string that decodes, none otherwise. *)
Definition chunk_of (message : LiveServerMessage) : list (list byte) :=
  match base64Audio message with
  | Ok (Some (c :: s)) =>
      match decode (c :: s) with Ok chunk => [chunk] | Throw _ => [] end
  | _ => []
  end.

Definition chunks_of_event (ev : event) : list (list byte) :=
  match ev with
  | Message m => chunk_of m
  | _ => []
  end.

(** The outcome of a request as a function of the events: the first
    close or error decides, a close according to the chunks appended
    before it. *)
Fixpoint decided (chunks : list (list byte)) (evs : list event)
  : option outcome :=
  match evs with
  | [] => None
  | Close :: _ =>
      Some (match chunks with
            | [] => Rejected no_audio_message
            | _ :: _ =>
                Resolved (wav_blob (toWav_spec (List.concat chunks) 24000 1 16))
            end)
  | Error e_message :: _ =>
      Some (Rejected (lit "A connection error occurred: " ++ e_message))
  | ev :: rest => decided (chunks ++ chunks_of_event ev) rest
  end.

(** * Properties *)

(** ** Bytes *)

Lemma byte_val_range (b : byte) : 0 <= byte_val b < 256.
Proof.
  unfold byte_val. pose proof (Byte.to_N_bounded b). lia.
Qed.

Lemma u8_byte_val (b : byte) : u8 (byte_val b) = b.
Proof.
  unfold u8. rewrite Z.mod_small by apply byte_val_range.
  unfold byte_val. rewrite N2Z.id, Byte.of_to_N. reflexivity.
Qed.

Lemma byte_val_u8 (z : Z) : byte_val (u8 z) = z mod 256.
Proof.
  unfold u8, byte_val.
  assert (Hr : 0 <= z mod 256 < 256) by (apply Z.mod_pos_bound; lia).
  destruct (Byte.of_N (Z.to_N (z mod 256))) as [b|] eqn:E.
  - apply Byte.to_of_N in E. rewrite E. lia.
  - apply Byte.of_N_None_iff in E. lia.
Qed.

Lemma u8_mod (z : Z) : u8 (z mod 256) = u8 z.
Proof. unfold u8. rewrite Z.mod_mod by lia. reflexivity. Qed.

Lemma byte_val_inj (a b : byte) : byte_val a = byte_val b -> a = b.
Proof.
  intro H. rewrite <- (u8_byte_val a), <- (u8_byte_val b), H. reflexivity.
Qed.

Lemma map_u8_byte_val (bs : list byte) : map u8 (map byte_val bs) = bs.
Proof.
  induction bs as [|b bs IH]; simpl; [reflexivity|].
  rewrite u8_byte_val, IH. reflexivity.
Qed.

(** Lists taken three elements at a time. *)
Lemma list_ind3 {A : Type} (P : list A -> Prop) :
  P [] -> (forall a, P [a]) -> (forall a b, P [a; b]) ->
  (forall a b c l, P l -> P (a :: b :: c :: l)) ->
  forall l, P l.
Proof.
  intros H0 H1 H2 H3.
  fix IH 1. intros [|a [|b [|c l]]].
  - exact H0.
  - apply H1.
  - apply H2.
  - apply H3, IH.
Qed.

(** ** Base64: atob undoes btoa *)

Section Base64RoundTrip.

Lemma sextet_of_char_of_sextet_nat (n : nat) :
  (n < 64)%nat ->
  sextet_of_char (char_of_sextet (Z.of_nat n)) = Some (Z.of_nat n).
Proof.
  intro H.
  do 64 (destruct n as [|n]; [reflexivity|]).
  lia.
Qed.

Lemma sextet_of_char_of_sextet (v : Z) :
  0 <= v < 64 -> sextet_of_char (char_of_sextet v) = Some v.
Proof.
  intro H. rewrite <- (Z2Nat.id v) by lia.
  apply sextet_of_char_of_sextet_nat. lia.
Qed.

Lemma sextet_of_char_pad (c : Z) : sextet_of_char c <> None -> c <> pad.
Proof.
  intros H ->. apply H. reflexivity.
Qed.

Lemma sextet_of_char_whitespace (c : Z) :
  sextet_of_char c <> None -> is_ascii_whitespace c = false.
Proof.
  unfold sextet_of_char, is_ascii_whitespace. intro H.
  destruct (c =? 9) eqn:E1; [apply Z.eqb_eq in E1; subst; now elim H|].
  destruct (c =? 10) eqn:E2; [apply Z.eqb_eq in E2; subst; now elim H|].
  destruct (c =? 12) eqn:E3; [apply Z.eqb_eq in E3; subst; now elim H|].
  destruct (c =? 13) eqn:E4; [apply Z.eqb_eq in E4; subst; now elim H|].
  destruct (c =? 32) eqn:E5; [apply Z.eqb_eq in E5; subst; now elim H|].
  reflexivity.
Qed.

Lemma sextets_of_bytes_range (bs : list byte) :
  Forall (fun v => 0 <= v < 64) (sextets_of_bytes bs).
Proof.
  induction bs as [|a|a b|a b c l IH] using list_ind3; cbn [sextets_of_bytes];
    repeat constructor; try assumption;
    try pose proof (byte_val_range a); try pose proof (byte_val_range b);
    try pose proof (byte_val_range c);
    (apply Z.div_pos; lia) || (apply Z.div_lt_upper_bound; lia)
    || (apply Z.mod_pos_bound; lia)
    || (Z.div_mod_to_equations; lia).
Qed.

Lemma encode_bytes_split (bs : list byte) :
  encode_bytes bs = map char_of_sextet (sextets_of_bytes bs) ++ padding bs.
Proof.
  induction bs as [|a|a b|a b c l IH] using list_ind3; try reflexivity.
  cbn [encode_bytes sextets_of_bytes map app]. rewrite IH.
  do 4 f_equal. unfold padding. f_equal.
  change (List.length (a :: b :: c :: l)) with (3 + List.length l)%nat.
  rewrite Nat.Div0.add_mod, Nat.Div0.mod_same, Nat.add_0_l, Nat.Div0.mod_mod.
  reflexivity.
Qed.

Lemma sextets_length (bs : list byte) :
  (List.length (sextets_of_bytes bs) + List.length (padding bs)
   = 4 * ((List.length bs + 2) / 3))%nat
  /\ (List.length (sextets_of_bytes bs) mod 4 <> 1)%nat.
Proof.
  induction bs as [|a|a b|a b c l [IH1 IH2]] using list_ind3;
    try (split; [reflexivity | cbn; lia]).
  split.
  - replace (padding (a :: b :: c :: l)) with (padding l).
    + cbn [sextets_of_bytes List.length].
      replace (S (S (S (List.length l))) + 2)%nat
        with (1 * 3 + (List.length l + 2))%nat by lia.
      rewrite Nat.div_add_l by lia. lia.
    + unfold padding.
      change (List.length (a :: b :: c :: l)) with (3 + List.length l)%nat.
      rewrite Nat.Div0.add_mod, Nat.Div0.mod_same, Nat.add_0_l,
        Nat.Div0.mod_mod.
      reflexivity.
  - cbn [sextets_of_bytes List.length].
    replace (S (S (S (S (List.length (sextets_of_bytes l))))))
      with (List.length (sextets_of_bytes l) + 1 * 4)%nat by lia.
    rewrite Nat.Div0.mod_add. exact IH2.
Qed.

Lemma sextets_chars (vs : list Z) :
  Forall (fun v => 0 <= v < 64) vs ->
  sextets (map char_of_sextet vs) = Some vs.
Proof.
  induction 1 as [|v vs Hv _ IH]; [reflexivity|].
  cbn [map sextets]. rewrite sextet_of_char_of_sextet, IH by assumption.
  reflexivity.
Qed.

Lemma decode_sextets_of_bytes (bs : list byte) :
  decode_sextets (sextets_of_bytes bs) = bs.
Proof.
  induction bs as [|a|a b|a b c l IH] using list_ind3;
    cbn [sextets_of_bytes decode_sextets]; [reflexivity|..].
  - f_equal. rewrite <- (u8_byte_val a) at 3. f_equal.
    pose proof (byte_val_range a). Z.div_mod_to_equations. lia.
  - pose proof (byte_val_range a). pose proof (byte_val_range b).
    f_equal; [|f_equal].
    + rewrite <- (u8_byte_val a) at 3. f_equal. Z.div_mod_to_equations. lia.
    + rewrite <- (u8_byte_val b) at 3. f_equal. Z.div_mod_to_equations. lia.
  - pose proof (byte_val_range a). pose proof (byte_val_range b).
    pose proof (byte_val_range c).
    rewrite IH. f_equal; [|f_equal; [|f_equal]].
    + rewrite <- (u8_byte_val a) at 3. f_equal. Z.div_mod_to_equations. lia.
    + rewrite <- (u8_byte_val b) at 3. f_equal. Z.div_mod_to_equations. lia.
    + rewrite <- (u8_byte_val c) at 3. f_equal. Z.div_mod_to_equations. lia.
Qed.

End Base64RoundTrip.

Section AtobBtoa.

Lemma filter_all {A : Type} (f : A -> bool) (l : list A) :
  Forall (fun x => f x = true) l -> filter f l = l.
Proof.
  induction 1 as [|x l Hx _ IH]; cbn [filter]; [reflexivity|].
  rewrite Hx, IH. reflexivity.
Qed.

Lemma chars_in_alphabet (vs : list Z) :
  Forall (fun v => 0 <= v < 64) vs ->
  Forall (fun c => sextet_of_char c <> None) (map char_of_sextet vs).
Proof.
  induction 1 as [|v vs Hv _ IH]; cbn [map]; constructor; [|exact IH].
  rewrite sextet_of_char_of_sextet by assumption. discriminate.
Qed.

Lemma strip_padding_two (l : jsstring) : strip_padding (l ++ [pad; pad]) = l.
Proof.
  unfold strip_padding. rewrite rev_app_distr. cbn [rev app].
  rewrite Z.eqb_refl. apply rev_involutive.
Qed.

Lemma rev_head_Forall {A : Type} (P : A -> Prop) (l r : list A) (q : A) :
  Forall P l -> rev l = q :: r -> P q.
Proof.
  intros H E. apply Forall_rev in H. rewrite E in H.
  inversion H; assumption.
Qed.

Lemma strip_padding_one (l : jsstring) :
  Forall (fun c => c <> pad) l -> strip_padding (l ++ [pad]) = l.
Proof.
  intro H. unfold strip_padding. rewrite rev_app_distr.
  change (rev [pad]) with [pad]. cbn [app].
  destruct (rev l) as [|q r] eqn:E.
  - rewrite Z.eqb_refl. rewrite <- (rev_involutive l), E. reflexivity.
  - rewrite Z.eqb_refl.
    pose proof (rev_head_Forall _ _ _ _ H E) as Hq.
    apply Z.eqb_neq in Hq. rewrite Hq.
    rewrite <- E. apply rev_involutive.
Qed.

Lemma strip_padding_none (l : jsstring) :
  Forall (fun c => c <> pad) l -> strip_padding l = l.
Proof.
  intro H. unfold strip_padding.
  destruct (rev l) as [|p [|q r]] eqn:E; [reflexivity| |];
    pose proof (rev_head_Forall _ _ _ _ H E) as Hp;
    apply Z.eqb_neq in Hp; rewrite Hp; reflexivity.
Qed.

Lemma strip_padding_encode_bytes (bs : list byte) :
  strip_padding (encode_bytes bs) = map char_of_sextet (sextets_of_bytes bs).
Proof.
  rewrite encode_bytes_split.
  assert (H : Forall (fun c => c <> pad)
                (map char_of_sextet (sextets_of_bytes bs))).
  { eapply Forall_impl; [apply sextet_of_char_pad|].
    apply chars_in_alphabet, sextets_of_bytes_range. }
  unfold padding. destruct (List.length bs mod 3)%nat as [|[|[|n]]].
  - rewrite app_nil_r. apply strip_padding_none, H.
  - apply strip_padding_two.
  - apply strip_padding_one, H.
  - rewrite app_nil_r. apply strip_padding_none, H.
Qed.

Lemma encode_bytes_no_whitespace (bs : list byte) :
  filter (fun c => negb (is_ascii_whitespace c)) (encode_bytes bs)
  = encode_bytes bs.
Proof.
  apply filter_all. rewrite encode_bytes_split. apply Forall_app. split.
  - eapply Forall_impl; [|apply chars_in_alphabet, sextets_of_bytes_range].
    intros c Hc. cbv beta. rewrite sextet_of_char_whitespace by exact Hc.
    reflexivity.
  - unfold padding. destruct (List.length bs mod 3)%nat as [|[|[|n]]];
      repeat constructor.
Qed.

Lemma encode_bytes_length (bs : list byte) :
  Z.of_nat (List.length (encode_bytes bs)) mod 4 = 0.
Proof.
  rewrite encode_bytes_split, length_app, length_map.
  destruct (sextets_length bs) as [-> _].
  rewrite Nat2Z.inj_mul, Z.mul_comm. apply Z.mod_mul. lia.
Qed.

(** atob returns the bytes that were encoded. *)
Lemma atob_encode_bytes (bs : list byte) :
  atob (encode_bytes bs) = Ok (map byte_val bs).
Proof.
  unfold atob. rewrite encode_bytes_no_whitespace, encode_bytes_length.
  cbn [Z.eqb]. rewrite strip_padding_encode_bytes, length_map.
  destruct (sextets_length bs) as [_ H].
  assert (E : (Z.of_nat (List.length (sextets_of_bytes bs)) mod 4 =? 1)
              = false).
  { apply Z.eqb_neq. intro E. apply H.
    apply Nat2Z.inj. rewrite Nat2Z.inj_mod. exact E. }
  rewrite E, sextets_chars by apply sextets_of_bytes_range.
  rewrite decode_sextets_of_bytes. reflexivity.
Qed.

Lemma binary_of_bytes (bs : list byte) (acc : jsstring) :
  fold_left (fun binary b => binary ++ [byte_val b]) bs acc
  = acc ++ map byte_val bs.
Proof.
  revert acc. induction bs as [|b bs IH]; intro acc; cbn [fold_left map].
  - symmetry. apply app_nil_r.
  - rewrite IH, <- app_assoc. reflexivity.
Qed.

Lemma btoa_bytes (bs : list byte) :
  btoa (map byte_val bs) = Ok (encode_bytes bs).
Proof.
  unfold btoa. rewrite map_u8_byte_val.
  replace (forallb _ (map byte_val bs)) with true; [reflexivity|].
  symmetry. apply forallb_forall. intros c Hc.
  apply in_map_iff in Hc. destruct Hc as [b [<- _]].
  pose proof (byte_val_range b). apply andb_true_iff.
  split; apply Z.leb_le; lia.
Qed.

(** [encode] never throws: its result is the padded RFC 4648 text. *)
Lemma encode_encode_bytes (bs : list byte) : encode bs = Ok (encode_bytes bs).
Proof.
  unfold encode. rewrite binary_of_bytes. apply btoa_bytes.
Qed.

Lemma decode_encode_bytes (bs : list byte) : decode (encode_bytes bs) = Ok bs.
Proof.
  unfold decode. rewrite atob_encode_bytes. cbn [bind].
  rewrite map_u8_byte_val. reflexivity.
Qed.

End AtobBtoa.

(** C9: for every byte array [b], [encode b] returns a string and
    [decode] of that string returns [b] itself; the base64 step loses
    nothing. *)
Theorem decode_encode (b : list byte) :
  exists s, encode b = Ok s /\ decode s = Ok b.
Proof.
  exists (encode_bytes b). split.
  - apply encode_encode_bytes.
  - apply decode_encode_bytes.
Qed.

(** ** The WAV writer *)

Section WavWriter.

Lemma write_head (h t : list byte) (offset : nat) (src h' : list byte) :
  write h offset src = Ok h' -> write (h ++ t) offset src = Ok (h' ++ t).
Proof.
  unfold write.
  destruct (offset + List.length src <=? List.length h)%nat eqn:E;
    [|discriminate].
  apply Nat.leb_le in E. intro H. injection H as <-.
  rewrite length_app.
  replace (offset + List.length src <=? List.length h + List.length t)%nat
    with true by (symmetry; apply Nat.leb_le; lia).
  rewrite firstn_app, skipn_app.
  replace (offset - List.length h)%nat with 0%nat by lia.
  replace (offset + List.length src - List.length h)%nat with 0%nat by lia.
  cbn [firstn skipn]. rewrite app_nil_r, <- !app_assoc. reflexivity.
Qed.

Lemma writeString_head (s : jsstring) (h t : list byte) (offset : nat)
  (h' : list byte) :
  writeString h offset s = Ok h' ->
  writeString (h ++ t) offset s = Ok (h' ++ t).
Proof.
  revert h offset. induction s as [|c s IH]; intros h offset; cbn [writeString].
  - intro H. injection H as <-. reflexivity.
  - unfold setUint8. destruct (write h offset [u8 c]) as [h1|e] eqn:E;
      cbn [bind]; [|discriminate].
    rewrite (write_head _ _ _ _ _ E). cbn [bind]. apply IH.
Qed.

Lemma write_tail (h t src : list byte) :
  List.length src = List.length t ->
  write (h ++ t) (List.length h) src = Ok (h ++ src).
Proof.
  intro H. unfold write. rewrite length_app, H, Nat.leb_refl.
  rewrite firstn_app, Nat.sub_diag, firstn_all. cbn [firstn].
  rewrite skipn_all2 by (rewrite length_app; lia).
  rewrite !app_nil_r. reflexivity.
Qed.

End WavWriter.

(** One write into the 44 header bytes of a buffer [h ++ t]. *)
Ltac header_write :=
  first [ erewrite writeString_head
            by (cbv - [u8 Z.add Z.mul Z.div Z.of_nat]; reflexivity)
        | erewrite write_head
            by (cbv - [u8 Z.add Z.mul Z.div Z.of_nat]; reflexivity) ];
  cbn [bind].

(** [pcmToWav] never throws, and its bytes are the layout of the
    specification at 24000 Hz, one channel, 16 bits. *)
Lemma pcmToWav_layout (pcmData : list byte) :
  pcmToWav pcmData
  = Ok (wav_blob (toWav_spec pcmData 24000 1 16)).
Proof.
  unfold pcmToWav, toWav_spec. cbv zeta.
  remember (List.length pcmData) as n eqn:Hn.
  rewrite repeat_app.
  unfold setUint32, setUint16.
  do 13 header_write.
  match goal with
  | |- context [write (?h ++ _) 44 _] =>
      change 44%nat with (List.length h)
  end.
  rewrite write_tail by (rewrite repeat_length; symmetry; exact Hn).
  cbn [bind]. f_equal.
Qed.

Section WavFields.

Lemma le_value_u16le (v : Z) : le_value (u16le v) = v mod 2 ^ 16.
Proof.
  unfold le_value, u16le. cbn [fold_right]. rewrite !byte_val_u8.
  change (2 ^ 16) with 65536. Z.div_mod_to_equations. lia.
Qed.

Lemma le_value_u32le (v : Z) : le_value (u32le v) = v mod 2 ^ 32.
Proof.
  unfold le_value, u32le. cbn [fold_right]. rewrite !byte_val_u8.
  change (2 ^ 32) with 4294967296. Z.div_mod_to_equations. lia.
Qed.

Variables (pcmPayload : list byte) (sampleRate channels bitsPerSample : Z).

Local Abbreviation wav :=
  (toWav_spec pcmPayload sampleRate channels bitsPerSample).
Local Abbreviation dataSize := (Z.of_nat (List.length pcmPayload)).

Lemma toWav_spec_length : List.length wav = (44 + List.length pcmPayload)%nat.
Proof.
  unfold toWav_spec. rewrite !length_app. reflexivity.
Qed.

Lemma toWav_spec_payload : skipn 44 wav = pcmPayload.
Proof. reflexivity. Qed.

Lemma toWav_spec_tags :
  slice wav 0 4 = ascii_bytes "RIFF" /\ slice wav 8 4 = ascii_bytes "WAVE"
  /\ slice wav 12 4 = ascii_bytes "fmt " /\ slice wav 36 4 = ascii_bytes "data".
Proof. repeat split. Qed.

Lemma toWav_spec_sizes :
  getUint32 wav 4 = (36 + dataSize) mod 2 ^ 32
  /\ getUint32 wav 40 = dataSize mod 2 ^ 32.
Proof.
  split.
  - change (getUint32 wav 4) with (le_value (u32le (36 + dataSize))).
    apply le_value_u32le.
  - change (getUint32 wav 40) with (le_value (u32le dataSize)).
    apply le_value_u32le.
Qed.

Lemma toWav_spec_format :
  getUint32 wav 16 = 16 /\ getUint16 wav 20 = 1
  /\ getUint16 wav 22 = channels mod 2 ^ 16
  /\ getUint32 wav 24 = sampleRate mod 2 ^ 32
  /\ getUint32 wav 28 = (sampleRate * channels * bitsPerSample / 8) mod 2 ^ 32
  /\ getUint16 wav 32 = (channels * bitsPerSample / 8) mod 2 ^ 16
  /\ getUint16 wav 34 = bitsPerSample mod 2 ^ 16.
Proof.
  repeat split.
  - change (getUint16 wav 22) with (le_value (u16le channels)).
    apply le_value_u16le.
  - change (getUint32 wav 24) with (le_value (u32le sampleRate)).
    apply le_value_u32le.
  - change (getUint32 wav 28)
      with (le_value (u32le (sampleRate * channels * bitsPerSample / 8))).
    apply le_value_u32le.
  - change (getUint16 wav 32)
      with (le_value (u16le (channels * bitsPerSample / 8))).
    apply le_value_u16le.
  - change (getUint16 wav 34) with (le_value (u16le bitsPerSample)).
    apply le_value_u16le.
Qed.

End WavFields.

(** C1, amended: for every PCM payload whose length plus 36 is below
    2^32, [pcmToWav] returns a buffer of exactly 44 + len(payload) bytes
    holding the header table for 24000 Hz, 1 channel and 16 bits: "RIFF",
    u32 36 + dataSize at 4, "WAVE", "fmt ", u32 16, u16 1, channels at
    22, sample rate at 24, byte rate at 28, block align at 32, bits per
    sample at 34, "data", u32 dataSize at 40, and the payload verbatim
    from offset 44. *)
Theorem pcmToWav_header (pcmData : list byte) :
  36 + Z.of_nat (List.length pcmData) < 2 ^ 32 ->
  exists wav,
    pcmToWav pcmData = Ok (wav_blob wav)
    /\ List.length wav = (44 + List.length pcmData)%nat
    /\ wav_layout wav pcmData 24000 1 16.
Proof.
  intro Hsize. exists (toWav_spec pcmData 24000 1 16).
  split; [apply pcmToWav_layout|].
  split; [apply toWav_spec_length|].
  destruct (toWav_spec_sizes pcmData 24000 1 16) as [H4 H40].
  unfold wav_layout. cbv zeta.
  rewrite H4, H40, !Z.mod_small by lia.
  repeat split.
Qed.

Lemma pcmToWav_header_witness :
  36 + Z.of_nat (List.length [x01; x02; x03]) < 2 ^ 32
  /\ exists wav,
       pcmToWav [x01; x02; x03] = Ok (wav_blob wav)
       /\ List.length wav = (44 + List.length [x01; x02; x03])%nat
       /\ wav_layout wav [x01; x02; x03] 24000 1 16.
Proof.
  split; [reflexivity | apply (pcmToWav_header [x01; x02; x03]); reflexivity].
Defined.

(** C1 as stated fails for a payload of 2^32 - 36 bytes: the RIFF size
    field is a u32, and 36 + dataSize = 2^32 is stored as 0. *)
Lemma pcmToWav_riff_size_wraps :
  exists wav,
    pcmToWav (repeat x00 (Z.to_nat 4294967260)) = Ok (wav_blob wav)
    /\ getUint32 wav 4 = 0
    /\ getUint32 wav 4
       <> 36 + Z.of_nat (List.length (repeat x00 (Z.to_nat 4294967260))).
Proof.
  exists (toWav_spec (repeat x00 (Z.to_nat 4294967260)) 24000 1 16).
  split; [apply pcmToWav_layout|].
  destruct (toWav_spec_sizes (repeat x00 (Z.to_nat 4294967260)) 24000 1 16)
    as [H4 _].
  rewrite H4, repeat_length, Z2Nat.id by lia.
  split; [reflexivity | discriminate].
Qed.

(** C6, amended: the writer takes the payload alone and fixes the format
    inside: for every payload its result is the layout of the contract
    at sample rate 24000, 1 channel and 16 bits per sample, and the three
    header fields hold these constants whatever the payload. *)
Theorem pcmToWav_fixed_format (pcmData : list byte) :
  pcmToWav pcmData = Ok (wav_blob (toWav_spec pcmData 24000 1 16))
  /\ getUint16 (toWav_spec pcmData 24000 1 16) 22 = 1
  /\ getUint32 (toWav_spec pcmData 24000 1 16) 24 = 24000
  /\ getUint16 (toWav_spec pcmData 24000 1 16) 34 = 16.
Proof.
  split; [apply pcmToWav_layout|].
  repeat split.
Qed.

(** C6 as stated fails: asked for 48000 Hz, 2 channels and 16 bits, the
    contract's layout is not what [pcmToWav] returns, which has no
    argument to receive these values. *)
Lemma pcmToWav_not_parametric :
  ~ (forall (pcmPayload : list byte) (sampleRate channels bitsPerSample : Z),
        pcmToWav pcmPayload
        = Ok (wav_blob (toWav_spec pcmPayload sampleRate channels
                                   bitsPerSample))).
Proof.
  intro H. specialize (H [] 48000 2 16).
  rewrite pcmToWav_layout in H. injection H as H. discriminate H.
Qed.

(** ** The PCM conversion of createBlob *)

Section PcmSample.

Lemma compare_fin_antisym (m1 e1 m2 e2 : Z) :
  compare_fin m2 e2 m1 e1 = CompOpp (compare_fin m1 e1 m2 e2).
Proof.
  unfold compare_fin. rewrite (Z.min_comm e2 e1). apply Z.compare_antisym.
Qed.

(** A finite number above 1, resp. below 1, in terms of [m] and [e]. *)
Lemma one_lt_fin (m e : Z) :
  ltb (of_Z 1) (Fin m e) = true -> ltb (Fin m e) (of_Z 1) = false.
Proof.
  unfold of_Z. cbn [ltb]. rewrite (compare_fin_antisym 1 0 m e).
  destruct (compare_fin 1 0 m e); cbn [CompOpp]; congruence.
Qed.

Lemma fin_lt_minus_one (m e : Z) :
  ltb (Fin m e) (of_Z (-1)) = true -> ltb (of_Z (-1)) (Fin m e) = false.
Proof.
  unfold of_Z. cbn [ltb]. rewrite (compare_fin_antisym m e (-1) 0).
  destruct (compare_fin m e (-1) 0); cbn [CompOpp]; congruence.
Qed.

Lemma fin_lt_minus_one_lt_one (m e : Z) :
  ltb (Fin m e) (of_Z (-1)) = true -> ltb (Fin m e) (of_Z 1) = true.
Proof.
  unfold of_Z. cbn [ltb]. unfold compare_fin.
  destruct (_ ?= _) eqn:E1; try discriminate. intros _.
  rewrite Z.compare_lt_iff in E1.
  replace (_ ?= _) with Lt; [reflexivity|].
  symmetry. rewrite Z.compare_lt_iff.
  assert (0 < 2 ^ (0 - Z.min e 0)) by (apply Z.pow_pos_nonneg; lia).
  lia.
Qed.

(** Bounds of a finite number strictly between -1 and 1. *)
Lemma inside_bounds (m e : Z) :
  ltb (Fin m e) (of_Z 1) = true -> ltb (of_Z (-1)) (Fin m e) = true ->
  (0 <= e -> m = 0) /\ (e < 0 -> - 2 ^ (- e) < m < 2 ^ (- e)).
Proof.
  unfold of_Z. cbn [ltb]. unfold compare_fin.
  destruct (m * _ ?= _) eqn:E1; try discriminate. intros _.
  destruct (-1 * _ ?= _) eqn:E2; try discriminate. intros _.
  rewrite Z.compare_lt_iff in E1, E2.
  rewrite (Z.min_comm 0 e) in E2.
  split; intro He.
  - rewrite Z.min_r in E1, E2 by lia.
    rewrite Z.sub_0_r in E1, E2. change (2 ^ (0 - 0)) with 1 in E1, E2.
    assert (0 < 2 ^ e) by (apply Z.pow_pos_nonneg; lia). nia.
  - rewrite Z.min_l in E1, E2 by lia.
    rewrite Z.sub_diag in E1, E2. change (2 ^ 0) with 1 in E1, E2.
    replace (0 - e) with (- e) in E1, E2 by lia. lia.
Qed.

Lemma truncate_scaled_bounds (m e : Z) :
  (0 <= e -> m = 0) -> (e < 0 -> - 2 ^ (- e) < m < 2 ^ (- e)) ->
  -32767 <= truncate (m * 32767) e <= 32767.
Proof.
  intros H0 H1. unfold truncate. destruct (0 <=? e) eqn:E.
  - apply Z.leb_le in E. rewrite (H0 E). cbn. lia.
  - apply Z.leb_gt in E. specialize (H1 E).
    set (P := 2 ^ (- e)) in *.
    assert (HP : 0 < P) by (apply Z.pow_pos_nonneg; lia).
    destruct (Z.le_gt_cases 0 m) as [Hm|Hm].
    + assert (Hq : 0 <= m * 32767 ÷ P < 32767).
      { split; [apply Z.quot_pos; lia|].
        apply Z.quot_lt_upper_bound; lia. }
      lia.
    + replace (m * 32767) with (- (- m * 32767)) by lia.
      rewrite Z.quot_opp_l by lia.
      assert (Hq : 0 <= - m * 32767 ÷ P < 32767).
      { split; [apply Z.quot_pos; lia|].
        apply Z.quot_lt_upper_bound; lia. }
      lia.
Qed.

Lemma ToInt16_small (m e : Z) :
  -32768 <= truncate m e <= 32767 -> ToInt16 (Fin m e) = truncate m e.
Proof.
  intro H. unfold ToInt16. cbv zeta.
  destruct (Z.le_gt_cases 0 (truncate m e)) as [Hs|Hs].
  - rewrite Z.mod_small by lia.
    replace (32768 <=? truncate m e) with false; [reflexivity|].
    symmetry. apply Z.leb_gt. lia.
  - replace (truncate m e mod 65536) with (truncate m e + 65536).
    + replace (32768 <=? truncate m e + 65536) with true; [lia|].
      symmetry. apply Z.leb_le. lia.
    + apply (Z.mod_unique _ _ (-1)); lia.
Qed.

(** The sample values of the boundaries and of the values that are not
    numbers. *)
Lemma pcm_sample_above (s : float) :
  ltb (of_Z 1) s = true -> pcm_sample s = 32767.
Proof.
  destruct s as [|[|]|m e]; try discriminate; try reflexivity.
  intro H. unfold pcm_sample, Math_min.
  cbn [of_Z]. fold (of_Z 1). rewrite (one_lt_fin m e H). reflexivity.
Qed.

Lemma pcm_sample_below (s : float) :
  ltb s (of_Z (-1)) = true -> pcm_sample s = -32767.
Proof.
  destruct s as [|[|]|m e]; try discriminate; try reflexivity.
  intro H. unfold pcm_sample, Math_min.
  cbn [of_Z]. fold (of_Z 1). rewrite (fin_lt_minus_one_lt_one m e H).
  unfold Math_max. fold (of_Z (-1)). rewrite (fin_lt_minus_one m e H).
  reflexivity.
Qed.

Lemma pcm_sample_range (s : float) : -32767 <= pcm_sample s <= 32767.
Proof.
  destruct s as [|[|]|m e]; try (cbn; lia).
  unfold pcm_sample, Math_min. cbn [of_Z]. fold (of_Z 1).
  destruct (ltb (Fin m e) (of_Z 1)) eqn:E1; [|cbn; lia].
  unfold Math_max. fold (of_Z (-1)).
  destruct (ltb (of_Z (-1)) (Fin m e)) eqn:E2; [|cbn; lia].
  destruct (inside_bounds m e E1 E2) as [H0 H1].
  pose proof (truncate_scaled_bounds m e H0 H1) as Hb.
  unfold of_Z. cbn [mul]. rewrite Z.add_0_r.
  rewrite ToInt16_small by lia. exact Hb.
Qed.

(** The products that [createBlob] forms from the elements of a
    [Float32Array] are binary64 numbers: the multiplication of the
    source does not round. *)
Lemma clamped_product_binary64 (s : float) :
  is_float32 s ->
  is_binary64 (mul (Math_max (of_Z (-1)) (Math_min (of_Z 1) s)) (of_Z 32767)).
Proof.
  destruct s as [|[|]|m e]; try (intros _; cbn; lia).
  intros [Hm He]. unfold Math_min. cbn [of_Z]. fold (of_Z 1).
  destruct (ltb (Fin m e) (of_Z 1)); [|cbn; lia].
  unfold Math_max. fold (of_Z (-1)).
  destruct (ltb (of_Z (-1)) (Fin m e)); [|cbn; lia].
  unfold of_Z. cbn [mul is_binary64]. split; [|lia].
  rewrite Z.abs_mul. change (Z.abs 32767) with 32767.
  change (2 ^ 24) with 16777216 in Hm. change (2 ^ 53) with 9007199254740992.
  lia.
Qed.

End PcmSample.

(** C3: a sample outside [-1, 1] is converted as the boundary it lies
    beyond: above 1 it gives 32767, the largest 16-bit value, and below
    -1 it gives -32767; 2.0 and -2.0 are instances. *)
Theorem pcm_sample_clamps (s : float) :
  ltb (of_Z 1) s = true \/ ltb s (of_Z (-1)) = true ->
  pcm_sample s = pcm_sample (if ltb (of_Z 1) s then of_Z 1 else of_Z (-1))
  /\ pcm_sample s = (if ltb (of_Z 1) s then 32767 else -32767).
Proof.
  intros [H|H].
  - rewrite H, (pcm_sample_above s H). split; reflexivity.
  - pose proof (pcm_sample_below s H) as Hb.
    destruct (ltb (of_Z 1) s) eqn:E.
    + pose proof (pcm_sample_above s E) as Ha. rewrite Hb in Ha.
      discriminate Ha.
    + rewrite Hb. split; reflexivity.
Qed.

Lemma pcm_sample_clamps_witness :
  pcm_sample (of_Z 2) = 32767 /\ pcm_sample (of_Z (-2)) = -32767.
Proof.
  split.
  - exact (proj2 (pcm_sample_clamps (of_Z 2) (or_introl eq_refl))).
  - exact (proj2 (pcm_sample_clamps (of_Z (-2)) (or_intror eq_refl))).
Defined.

(** C10: whatever the samples, every 16-bit value that [createBlob]
    stores lies in [-32767, 32767]; -32768 is never stored. *)
Theorem int16_values_range (data : list float) :
  Forall (fun v => -32767 <= v <= 32767) (map pcm_sample data)
  /\ ~ In (-32768) (map pcm_sample data).
Proof.
  assert (H : Forall (fun v => -32767 <= v <= 32767) (map pcm_sample data)).
  { apply Forall_map, Forall_forall. intros s _. apply pcm_sample_range. }
  split; [exact H|].
  intro Hin. rewrite Forall_forall in H. specialize (H _ Hin). lia.
Qed.

Section PcmBytes.

Variable littleEndian : bool.

Lemma pcm_bytes_length (data : list float) :
  List.length (pcm_bytes littleEndian data) = (2 * List.length data)%nat.
Proof.
  unfold pcm_bytes. induction data as [|s data IH]; [reflexivity|].
  cbn [map flat_map]. rewrite length_app, IH.
  unfold int16_bytes. destruct littleEndian; cbn [List.length]; lia.
Qed.

Lemma createBlob_ok (data : list float) :
  createBlob littleEndian data
  = Ok {| media_data := encode_bytes (pcm_bytes littleEndian data);
          media_mimeType := lit "audio/pcm;rate=16000" |}.
Proof.
  unfold createBlob. rewrite encode_encode_bytes. reflexivity.
Qed.

Lemma silence_bytes :
  pcm_bytes littleEndian (repeat (Fin 0 0) 160) = repeat x00 320.
Proof. destruct littleEndian; vm_compute; reflexivity. Qed.

End PcmBytes.

(** C7: [createBlob] never throws; the raw buffer it encodes has exactly
    2 * len(samples) bytes and is what [decode] recovers from the
    returned text; no sample gives no byte, and the 160 zero samples of
    [onopen] give 320 zero bytes. *)
Theorem createBlob_pcm_length (littleEndian : bool) (data : list float) :
  (exists blob,
      createBlob littleEndian data = Ok blob
      /\ decode (media_data blob) = Ok (pcm_bytes littleEndian data))
  /\ List.length (pcm_bytes littleEndian data) = (2 * List.length data)%nat
  /\ pcm_bytes littleEndian [] = []
  /\ pcm_bytes littleEndian (repeat (Fin 0 0) 160) = repeat x00 320.
Proof.
  split; [|split; [apply pcm_bytes_length | split; [reflexivity|]]].
  - eexists. split; [apply createBlob_ok|]. apply decode_encode_bytes.
  - apply silence_bytes.
Qed.

(** ** Assembling the chunks in onclose *)

Section Assembly.

Lemma totalLength_concat (chunks : list (list byte)) (acc : nat) :
  fold_left (fun acc chunk => (acc + List.length chunk)%nat) chunks acc
  = (acc + List.length (List.concat chunks))%nat.
Proof.
  revert acc. induction chunks as [|c chunks IH]; intro acc;
    cbn [fold_left List.concat List.length].
  - lia.
  - rewrite IH, length_app. lia.
Qed.

Lemma write_middle (h m t src : list byte) :
  List.length src = List.length m ->
  write (h ++ m ++ t) (List.length h) src = Ok (h ++ src ++ t).
Proof.
  intro H. rewrite app_assoc.
  erewrite write_head; [rewrite <- app_assoc; reflexivity|].
  apply write_tail, H.
Qed.

(** The copy loop: with [done] already in place and zeros after it,
    copying [chunks] from offset [length done] fills in their
    concatenation. *)
Lemma copy_loop (chunks : list (list byte)) (done : list byte) :
  fold_left
    (fun st chunk =>
       st <- st ;;
       let '(fullAudio, offset) := st in
       fullAudio <- write fullAudio offset chunk ;;
       Ok (fullAudio, (offset + List.length chunk)%nat))
    chunks
    (Ok (done ++ repeat x00 (List.length (List.concat chunks)),
         List.length done))
  = Ok (done ++ List.concat chunks,
        (List.length done + List.length (List.concat chunks))%nat).
Proof.
  revert done. induction chunks as [|c chunks IH]; intro done.
  - cbn [fold_left List.concat List.length repeat].
    rewrite Nat.add_0_r. reflexivity.
  - cbn [fold_left List.concat bind]. rewrite length_app, repeat_app.
    rewrite write_middle by (rewrite repeat_length; reflexivity).
    cbn [bind]. rewrite <- length_app, app_assoc, IH.
    rewrite <- app_assoc, !length_app, Nat.add_assoc. reflexivity.
Qed.

Lemma fullAudio_concat (chunks : list (list byte)) :
  fullAudio chunks = Ok (List.concat chunks).
Proof.
  unfold fullAudio. cbv zeta. rewrite totalLength_concat.
  pose proof (copy_loop chunks []) as H. cbn [app List.length Nat.add] in *.
  rewrite H. reflexivity.
Qed.

End Assembly.

(** ** The callbacks *)

Section Callbacks.

Variable littleEndian : bool.

Lemma deliver_open (r : request) (log : list exn) :
  exists media, deliver littleEndian (r, log) Open
                = (sendRealtimeInput media r, log).
Proof.
  unfold deliver, callback, onopen. cbn [fst snd].
  rewrite createBlob_ok. cbn [bind]. eexists. reflexivity.
Qed.

(** A message whose payload [b] decodes: the chunk is appended when [b]
    is not the empty string, and the promise is left alone. *)
Lemma deliver_audio_message (b : jsstring) (done : option bool)
  (c : list byte) (r : request) (log : list exn) :
  decode b = Ok c ->
  exists r',
    deliver littleEndian (r, log) (Message (audio_message b done)) = (r', log)
    /\ settled r' = settled r
    /\ audioChunks r'
       = audioChunks r ++ match b with [] => [] | _ :: _ => [c] end.
Proof.
  intro Hd. unfold deliver, callback, onmessage, audio_message.
  cbn [fst snd base64Audio serverContent modelTurn parts nth_error
       inlineData data bind turnComplete].
  destruct b as [|x b].
  - cbn [bind]. rewrite app_nil_r.
    destruct done as [[|]|]; eexists; (split; [reflexivity|]);
      split; reflexivity.
  - rewrite Hd. cbn [bind].
    destruct done as [[|]|]; eexists; (split; [reflexivity|]);
      split; reflexivity.
Qed.

Lemma decode_empty (c : list byte) : decode [] = Ok c -> c = [].
Proof. cbv. intro H. injection H as <-. reflexivity. Qed.

(** The chunks of a whole sequence of decodable payloads. *)
Lemma feed_audio_messages (msgs : list (jsstring * option bool))
  (cs : list (list byte)) :
  Forall2 (fun bd c => decode (fst bd) = Ok c) msgs cs ->
  forall (r : request) (log : list exn),
  exists r',
    feed littleEndian (r, log)
         (map (fun bd => Message (audio_message (fst bd) (snd bd))) msgs)
    = (r', log)
    /\ settled r' = settled r
    /\ List.concat (audioChunks r') = List.concat (audioChunks r) ++ List.concat cs
    /\ (audioChunks r <> [] \/ Exists (fun bd => fst bd <> []) msgs ->
        audioChunks r' <> []).
Proof.
  induction 1 as [|[b d] c msgs cs Hd _ IH]; intros r log.
  - exists r. cbn. rewrite app_nil_r. repeat split.
    intros [H|H]; [exact H | inversion H].
  - cbn [map feed fold_left fst snd] in *.
    destruct (deliver_audio_message b d c r log Hd) as [r1 [E1 [S1 A1]]].
    rewrite E1. destruct (IH r1 log) as [r' [E [S A]]].
    exists r'. split; [exact E|]. split; [congruence|].
    destruct A as [A N]. split.
    + rewrite A, A1, concat_app. destruct b as [|x b].
      * rewrite (decode_empty c Hd). cbn. rewrite !app_nil_r. reflexivity.
      * cbn [List.concat]. rewrite app_nil_r, <- app_assoc. reflexivity.
    + intro H. apply N. rewrite A1.
      destruct H as [H|H].
      * left. destruct (audioChunks r); [congruence|discriminate].
      * inversion H as [? ? Hb|? ? Hb]; subst.
        -- left. cbn [fst] in Hb. destruct b; [congruence|].
           destruct (audioChunks r); discriminate.
        -- right. exact Hb.
Qed.

Lemma onclose_chunks (r : request) :
  audioChunks r <> [] -> settled r = None ->
  exists r',
    onclose r = Ok r'
    /\ audioChunks r' = audioChunks r
    /\ settled r'
       = Some (Resolved (wav_blob (toWav_spec (List.concat (audioChunks r))
                                              24000 1 16))).
Proof.
  intros Hne Hs. unfold onclose.
  destruct (audioChunks r) as [|c cs] eqn:E; [congruence|].
  cbn [List.length Nat.ltb Nat.leb].
  rewrite fullAudio_concat. cbn [bind]. rewrite pcmToWav_layout. cbn [bind].
  unfold resolve, settle. rewrite Hs. eexists. split; [reflexivity|].
  cbn [audioChunks settled]. split; [exact E | reflexivity].
Qed.

Lemma onclose_empty (r : request) :
  audioChunks r = [] -> settled r = None ->
  exists r',
    onclose r = Ok r'
    /\ settled r' = Some (Rejected no_audio_message).
Proof.
  intros He Hs. unfold onclose. rewrite He. cbn [List.length Nat.ltb Nat.leb].
  unfold reject, settle. rewrite Hs. eexists. split; reflexivity.
Qed.

End Callbacks.

(** C2, amended: when the session opens, delivers n >= 1 base64 strings
    that decode to the chunks c1 ... cn, at least one string being
    non-empty, and closes, the buffer assembled at close is exactly
    c1 ++ ... ++ cn in arrival order, no callback throws, and the request
    resolves with the WAV of that buffer. *)
Theorem chunks_assembled_in_order (littleEndian : bool)
  (msgs : list (jsstring * option bool)) (cs : list (list byte)) :
  Forall2 (fun bd c => decode (fst bd) = Ok c) msgs cs ->
  Exists (fun bd => fst bd <> []) msgs ->
  exists r,
    run littleEndian (chunk_session msgs) = (r, [])
    /\ fullAudio (audioChunks r) = Ok (List.concat cs)
    /\ settled r
       = Some (Resolved (wav_blob (toWav_spec (List.concat cs) 24000 1 16))).
Proof.
  intros Hd Hne. unfold run, chunk_session.
  cbn [fold_left]. destruct (deliver_open littleEndian start []) as [media ->].
  rewrite fold_left_app.
  destruct (feed_audio_messages littleEndian msgs cs Hd
              (sendRealtimeInput media start) [])
    as [r1 [E [S [A N]]]].
  unfold feed in E. rewrite E. cbn [fold_left].
  destruct (onclose_chunks r1 (N (or_intror Hne))) as [r' [Ec [Ac Sc]]].
  { rewrite S. reflexivity. }
  unfold deliver, callback. cbn [fst snd]. rewrite Ec.
  exists r'. split; [reflexivity|].
  rewrite Ac, Sc, fullAudio_concat, A. split; reflexivity.
Qed.

Lemma chunks_assembled_in_order_witness :
  exists r,
    run true (chunk_session [(lit "AQIDBA==", None);
                             (lit "BQYHCAkK", Some true)]) = (r, [])
    /\ fullAudio (audioChunks r)
       = Ok (List.concat [[x01; x02; x03; x04];
                          [x05; x06; x07; x08; x09; x0a]])
    /\ settled r
       = Some (Resolved
                 (wav_blob
                    (toWav_spec
                       (List.concat [[x01; x02; x03; x04];
                                     [x05; x06; x07; x08; x09; x0a]])
                       24000 1 16))).
Proof.
  apply (chunks_assembled_in_order true
           [(lit "AQIDBA==", None); (lit "BQYHCAkK", Some true)]
           [[x01; x02; x03; x04]; [x05; x06; x07; x08; x09; x0a]]).
  - repeat constructor.
  - apply Exists_cons_hd. discriminate.
Defined.

(** C2 as stated fails for a single chunk of no bytes, delivered as the
    empty string: [onmessage] takes the empty payload for an absent one,
    nothing is appended, and the close rejects instead of returning the
    empty concatenation. *)
Lemma empty_chunk_not_assembled :
  decode [] = Ok []
  /\ settled (fst (run true (chunk_session [([], None)])))
     = Some (Rejected no_audio_message).
Proof. split; reflexivity. Qed.

Lemma no_audio_feed (littleEndian : bool) (ms : list LiveServerMessage) :
  Forall (fun m => carries_audio m = false) ms ->
  forall (st : request * list exn),
    audioChunks (fst (feed littleEndian st (map Message ms)))
    = audioChunks (fst st)
    /\ settled (fst (feed littleEndian st (map Message ms)))
       = settled (fst st).
Proof.
  induction 1 as [|m ms Hm _ IH]; intro st; [split; reflexivity|].
  cbn [map].
  change (feed littleEndian st (Message m :: map Message ms))
    with (feed littleEndian (deliver littleEndian st (Message m))
               (map Message ms)).
  destruct (IH (deliver littleEndian st (Message m))) as [-> ->].
  unfold carries_audio in Hm.
  unfold deliver, callback, onmessage.
  destruct (base64Audio m) as [[[|c b]|]|e]; try discriminate; cbn [bind];
    destruct (serverContent m) as [[mt [[|]|]]|]; split; reflexivity.
Qed.

(** C4: when the session opens, delivers messages none of which carries
    audio, and closes, the request is rejected with "No audio data was
    received from the API.", a message no other rejection of the
    function uses, and it is not resolved with any WAV. *)
Theorem no_audio_rejected (littleEndian : bool)
  (ms : list LiveServerMessage) :
  Forall (fun m => carries_audio m = false) ms ->
  settled (fst (run littleEndian (Open :: map Message ms ++ [Close])))
  = Some (Rejected no_audio_message)
  /\ (forall blob,
         settled (fst (run littleEndian (Open :: map Message ms ++ [Close])))
         <> Some (Resolved blob))
  /\ no_audio_message <> missing_key_message
  /\ (forall e_message,
         no_audio_message <> lit "A connection error occurred: " ++ e_message).
Proof.
  intro H.
  assert (E : settled (fst (run littleEndian
                              (Open :: map Message ms ++ [Close])))
              = Some (Rejected no_audio_message)).
  { unfold run. cbn [fold_left].
    destruct (deliver_open littleEndian start []) as [media ->].
    rewrite fold_left_app.
    destruct (no_audio_feed littleEndian ms H
                (sendRealtimeInput media start, [])) as [A S].
    cbn [fst audioChunks settled sendRealtimeInput start] in A, S.
    destruct (onclose_empty _ A S) as [r' [Ec Sc]].
    unfold feed in Ec, Sc.
    cbn [fold_left]. unfold deliver at 1. unfold callback. rewrite Ec.
    exact Sc. }
  split; [exact E|]. split; [|split].
  - intro blob. rewrite E. discriminate.
  - discriminate.
  - intro e_message. discriminate.
Qed.

Lemma no_audio_rejected_witness :
  settled (fst (run true
                  (Open :: map Message
                             [ {| serverContent := None |};
                               {| serverContent :=
                                    Some {| modelTurn := None;
                                            turnComplete := Some true |} |} ]
                   ++ [Close])))
  = Some (Rejected no_audio_message).
Proof.
  apply (no_audio_rejected true
           [ {| serverContent := None |};
             {| serverContent :=
                  Some {| modelTurn := None; turnComplete := Some true |} |} ]).
  repeat constructor.
Defined.

(** C5, on the code: a malformed payload between two valid ones.  Its
    [decode] throws inside [onmessage], nothing rejects the request, the
    two other chunks are kept, and the close resolves with a WAV that
    lacks the malformed chunk; the exception is only in the log. *)
Theorem malformed_chunk_skipped :
  let evs := chunk_session [(lit "AQID", None); (lit "!!!!", None);
                            (lit "BAUG", Some true)] in
  decode (lit "!!!!") = Throw InvalidCharacterError
  /\ audioChunks (fst (run true evs)) = [[x01; x02; x03]; [x04; x05; x06]]
  /\ settled (fst (run true evs))
     = Some (Resolved
               (wav_blob
                  (toWav_spec [x01; x02; x03; x04; x05; x06] 24000 1 16)))
  /\ snd (run true evs) = [InvalidCharacterError].
Proof. vm_compute. repeat split. Qed.

(** A message without audio payload never changes the accumulator or the
    promise, whether [onmessage] returns or throws. *)
Lemma no_payload_accumulator (littleEndian : bool) (m : LiveServerMessage)
  (st : request * list exn) :
  audio_payload m = None ->
  audioChunks (fst (deliver littleEndian st (Message m)))
  = audioChunks (fst st)
  /\ settled (fst (deliver littleEndian st (Message m))) = settled (fst st).
Proof.
  intro H.
  assert (F : Forall (fun m => carries_audio m = false) [m]).
  { constructor; [|constructor].
    unfold carries_audio, base64Audio. unfold audio_payload in H.
    destruct (serverContent m) as [[[[[[|p ps]|]]|] tc]|]; try reflexivity;
      try discriminate.
    cbn in *. destruct (inlineData p) as [d|]; [|reflexivity].
    rewrite H. reflexivity. }
  exact (no_audio_feed littleEndian [m] F st).
Qed.

(** C8, on the code: a message whose [modelTurn] has no [parts] carries
    no audio payload, yet [onmessage] throws a TypeError on it at
    [parts[0]]; the turn-complete flag of the message is then not acted
    upon. *)
Theorem absent_parts_message_throws (r : request) :
  let m := {| serverContent :=
                Some {| modelTurn := Some {| parts := None |};
                        turnComplete := Some true |} |} in
  audio_payload m = None
  /\ onmessage m r = Throw TypeError
  /\ forall littleEndian log,
       deliver littleEndian (r, log) (Message m) = (r, log ++ [TypeError]).
Proof. repeat split. Qed.

(** ** The multiplication against IEEE 754 binary64 *)

Section Binary64.

Import SpecFloat.

Lemma digits2_pos_bound (p : positive) :
  forall k, 0 <= k -> Zpos p < 2 ^ k -> Zpos (digits2_pos p) <= k.
Proof.
  induction p as [p IH|p IH|]; intros k Hk H; cbn [digits2_pos];
    (assert (k <> 0) by (intros ->; cbn in H; lia)); [| |lia];
    rewrite Pos2Z.inj_succ;
    replace k with (Z.succ (k - 1)) in H by lia;
    rewrite Z.pow_succ_r in H by lia;
    specialize (IH (k - 1)); lia.
Qed.

(** A significand below 2^53 with an exponent in range is not shifted:
    rounding returns it as it is. *)
Lemma binary_round_aux_exact (s : bool) (p : positive) (e : Z) :
  Zpos p < 2 ^ 53 -> -1074 <= e <= 971 ->
  binary_round_aux 53 1024 s (Zpos p) e loc_Exact = S754_finite s p e.
Proof.
  intros Hp He.
  pose proof (digits2_pos_bound p 53 ltac:(lia) Hp) as Hd.
  assert (Hs : forall l, shr_fexp 53 1024 (Zpos p) e l
                         = (shr_record_of_loc (Zpos p) l, e)).
  { intro l. unfold shr_fexp, shr, fexp, emin, Zdigits2.
    destruct (Z.max (Z.pos (digits2_pos p) + e - 53) (3 - 1024 - 53) - e)
      eqn:E; try reflexivity.
    lia. }
  unfold binary_round_aux. rewrite Hs.
  cbn [shr_record_of_loc shr_m loc_of_shr_record round_nearest_even].
  rewrite Hs. cbn [shr_record_of_loc shr_m].
  replace (e <=? 1024 - 53) with true; [reflexivity|].
  symmetry. apply Z.leb_le. lia.
Qed.

(** Where the exact product of two non-zero numbers is a binary64
    number, the binary64 multiplication of the standard library's
    IEEE 754 specification returns it. *)
Lemma mul_binary64_exact (m1 e1 m2 e2 : Z) :
  m1 <> 0 -> m2 <> 0 ->
  is_binary64 (mul (Fin m1 e1) (Fin m2 e2)) ->
  SFmul 53 1024 (to_spec_float (Fin m1 e1)) (to_spec_float (Fin m2 e2))
  = to_spec_float (mul (Fin m1 e1) (Fin m2 e2)).
Proof.
  intros H1 H2. cbn [mul is_binary64]. intros [Hm He].
  destruct m1 as [|p1|p1]; [congruence| |];
    destruct m2 as [|p2|p2]; try congruence;
    cbn [to_spec_float SFmul xorb Z.mul];
    apply binary_round_aux_exact; try exact He;
    cbn [Z.mul Z.abs] in Hm; exact Hm.
Qed.

(** So it is for every product that [createBlob] forms from an element
    of a [Float32Array]; when the clamped sample is a zero, so is the
    product, and ToInt16 gives 0 for either zero. *)
Lemma createBlob_product_exact (s : float) (m e : Z) :
  is_float32 s ->
  Math_max (of_Z (-1)) (Math_min (of_Z 1) s) = Fin m e -> m <> 0 ->
  SFmul 53 1024 (to_spec_float (Fin m e)) (to_spec_float (of_Z 32767))
  = to_spec_float (mul (Fin m e) (of_Z 32767)).
Proof.
  intros Hs Hc Hm. apply mul_binary64_exact; [exact Hm | discriminate|].
  rewrite <- Hc. apply clamped_product_binary64, Hs.
Qed.

End Binary64.

(** ** Sample runs *)

Example decode_sample : decode (lit "AQID/w==") = Ok [x01; x02; x03; xff].
Proof. reflexivity. Qed.

Example encode_sample : encode [x01; x02; x03; xff] = Ok (lit "AQID/w==").
Proof. reflexivity. Qed.

Example decode_spaces : decode (lit " AQ ID ") = Ok [x01; x02; x03].
Proof. reflexivity. Qed.

Example decode_unpadded : decode (lit "AQID/w") = Ok [x01; x02; x03; xff].
Proof. reflexivity. Qed.

Example decode_bad_character : decode (lit "AQ!D") = Throw InvalidCharacterError.
Proof. reflexivity. Qed.

Example decode_bad_length : decode (lit "AQIDB") = Throw InvalidCharacterError.
Proof. reflexivity. Qed.

(** 0.5, -0.5, 1, -1, not-a-number, and the 16-bit bytes of -32767. *)
Example pcm_sample_half : pcm_sample (Fin 1 (-1)) = 16383.
Proof. reflexivity. Qed.

Example pcm_sample_minus_half : pcm_sample (Fin (-1) (-1)) = -16383.
Proof. reflexivity. Qed.

Example pcm_sample_one : pcm_sample (of_Z 1) = 32767.
Proof. reflexivity. Qed.

Example pcm_sample_minus_one : pcm_sample (of_Z (-1)) = -32767.
Proof. reflexivity. Qed.

Example pcm_sample_nan : pcm_sample NaN = 0.
Proof. reflexivity. Qed.

Example pcm_bytes_minus_two : pcm_bytes true [of_Z (-2)] = [x01; x80].
Proof. reflexivity. Qed.

Example half_times_32767 :
  SpecFloat.SFmul 53 1024 (to_spec_float (Fin 1 (-1)))
                  (to_spec_float (of_Z 32767))
  = to_spec_float (Fin 32767 (-1)).
Proof. reflexivity. Qed.

(** The header of a one-byte payload. *)
Example pcmToWav_one_byte :
  pcmToWav [xab]
  = Ok (wav_blob
          [x52; x49; x46; x46; x25; x00; x00; x00; x57; x41; x56; x45;
           x66; x6d; x74; x20; x10; x00; x00; x00; x01; x00; x01; x00;
           xc0; x5d; x00; x00; x80; xbb; x00; x00; x02; x00; x10; x00;
           x64; x61; x74; x61; x01; x00; x00; x00; xab]).
Proof. reflexivity. Qed.

(** The sizes declared for payloads of 0, 1 and 100000 bytes. *)
Example declared_sizes :
  Forall (fun n =>
            let wav := toWav_spec (repeat x00 n) 24000 1 16 in
            List.length wav = (44 + n)%nat
            /\ getUint32 wav 4 = 36 + Z.of_nat n
            /\ getUint32 wav 40 = Z.of_nat n)
         [0%nat; 1%nat; Z.to_nat 100000].
Proof.
  assert (H : forall n,
             36 + Z.of_nat n < 2 ^ 32 ->
             let wav := toWav_spec (repeat x00 n) 24000 1 16 in
             List.length wav = (44 + n)%nat
             /\ getUint32 wav 4 = 36 + Z.of_nat n
             /\ getUint32 wav 40 = Z.of_nat n).
  { intros n Hn. cbv zeta.
    destruct (toWav_spec_sizes (repeat x00 n) 24000 1 16) as [H4 H40].
    rewrite toWav_spec_length, H4, H40, repeat_length.
    rewrite !Z.mod_small by lia. repeat split. }
  constructor; [apply H; lia|].
  constructor; [apply H; lia|].
  constructor; [apply H; lia|].
  constructor.
Qed.

(** A missing or placeholder key rejects before any event is looked at. *)
Example missing_key (evs : list event) :
  settled (fst (generateAudioFromText None true evs))
  = Some (Rejected missing_key_message)
  /\ settled (fst (generateAudioFromText
                     (Some (lit "YOUR_GEMINI_API_KEY")) true evs))
     = Some (Rejected missing_key_message).
Proof. split; reflexivity. Qed.

(** * Further properties of the code *)

(** ** encode and decode *)

Section Base64Shape.

Lemma padding_chars (bs : list byte) :
  Forall (fun c => sextet_of_char c <> None \/ c = pad) (padding bs).
Proof.
  unfold padding. destruct (List.length bs mod 3)%nat as [|[|[|n]]];
    repeat constructor; right; reflexivity.
Qed.

Lemma strip_padding_keeps (d : jsstring) (c : Z) :
  In c d -> c <> pad -> In c (strip_padding d).
Proof.
  intros Hin Hc. unfold strip_padding.
  apply in_rev in Hin.
  destruct (rev d) as [|p [|q r]] eqn:E.
  - destruct Hin.
  - destruct Hin as [->|[]].
    apply Z.eqb_neq in Hc. rewrite Hc.
    apply in_rev. rewrite E. left. reflexivity.
  - destruct (p =? pad) eqn:Ep.
    + apply Z.eqb_eq in Ep. destruct Hin as [->|Hin]; [congruence|].
      destruct (q =? pad) eqn:Eq.
      * apply Z.eqb_eq in Eq. destruct Hin as [->|Hin]; [congruence|].
        apply in_rev in Hin. exact Hin.
      * apply in_rev in Hin. exact Hin.
    + apply in_rev. rewrite E. exact Hin.
Qed.

Lemma strip_padding_length (d : jsstring) :
  (List.length (strip_padding d) <= List.length d)%nat.
Proof.
  unfold strip_padding. pose proof (length_rev d) as L.
  destruct (rev d) as [|p [|q r]]; cbn [List.length] in L.
  - lia.
  - destruct (p =? pad); cbn [List.length]; lia.
  - destruct (p =? pad); [destruct (q =? pad)|];
      rewrite ?length_rev; cbn [List.length]; lia.
Qed.

Lemma sextets_foreign (d : jsstring) (c : Z) :
  In c d -> sextet_of_char c = None -> sextets d = None.
Proof.
  intros Hin Hc. induction d as [|x d IH]; [destruct Hin|].
  cbn [sextets]. destruct Hin as [->|Hin].
  - rewrite Hc. reflexivity.
  - rewrite (IH Hin). destruct (sextet_of_char x); reflexivity.
Qed.

Lemma sextets_Some_length (d : jsstring) (vs : list Z) :
  sextets d = Some vs -> List.length vs = List.length d.
Proof.
  revert vs. induction d as [|x d IH]; intros vs; cbn [sextets].
  - intro H. injection H as <-. reflexivity.
  - destruct (sextet_of_char x); [|discriminate].
    destruct (sextets d) as [ws|]; [|discriminate].
    intro H. injection H as <-. cbn [List.length]. rewrite (IH ws eq_refl).
    reflexivity.
Qed.

Lemma decode_sextets_length (vs : list Z) :
  (4 * List.length (decode_sextets vs) <= 3 * List.length vs)%nat.
Proof.
  revert vs. fix IH 1. intros [|s1 [|s2 [|s3 [|s4 rest]]]];
    cbn [decode_sextets List.length]; try lia.
  specialize (IH rest). lia.
Qed.

End Base64Shape.

(** X1: [encode] never throws; its text has 4 * ceil(n / 3) characters,
    each from the base64 alphabet or "=". *)
Theorem encode_text_shape (bytes : list byte) :
  exists s,
    encode bytes = Ok s
    /\ List.length s = (4 * ((List.length bytes + 2) / 3))%nat
    /\ Forall (fun c => sextet_of_char c <> None \/ c = pad) s.
Proof.
  exists (encode_bytes bytes). split; [apply encode_encode_bytes|].
  rewrite encode_bytes_split. split.
  - rewrite length_app, length_map. apply sextets_length.
  - apply Forall_app. split; [|apply padding_chars].
    eapply Forall_impl; [|apply chars_in_alphabet, sextets_of_bytes_range].
    intros c Hc. left. exact Hc.
Qed.

(** X2: a string with a code unit that is neither a base64 character,
    nor "=", nor ASCII whitespace makes [decode] throw an
    InvalidCharacterError, wherever that code unit stands. *)
Theorem decode_rejects_foreign_character (base64 : jsstring) (c : Z) :
  In c base64 ->
  sextet_of_char c = None -> c <> pad -> is_ascii_whitespace c = false ->
  decode base64 = Throw InvalidCharacterError.
Proof.
  intros Hin Hs Hp Hw. unfold decode, atob.
  set (d0 := filter (fun c => negb (is_ascii_whitespace c)) base64).
  assert (H0 : In c d0).
  { apply filter_In. split; [exact Hin|]. rewrite Hw. reflexivity. }
  set (d1 := if Z.of_nat (List.length d0) mod 4 =? 0
             then strip_padding d0 else d0).
  assert (H1 : In c d1).
  { unfold d1. destruct (_ =? 0); [apply strip_padding_keeps|]; assumption. }
  rewrite (sextets_foreign d1 c H1 Hs).
  destruct (_ =? 1); reflexivity.
Qed.

Lemma decode_rejects_foreign_character_witness :
  decode (lit "AQ!D") = Throw InvalidCharacterError.
Proof.
  apply (decode_rejects_foreign_character (lit "AQ!D") 33).
  - right. right. left. reflexivity.
  - reflexivity.
  - discriminate.
  - reflexivity.
Defined.

(** X3: when [decode] returns, it returns at most three bytes for every
    four code units of its argument. *)
Theorem decode_length_bound (base64 : jsstring) (bytes : list byte) :
  decode base64 = Ok bytes ->
  (4 * List.length bytes <= 3 * List.length base64)%nat.
Proof.
  unfold decode, atob.
  set (d0 := filter (fun c => negb (is_ascii_whitespace c)) base64).
  set (d1 := if Z.of_nat (List.length d0) mod 4 =? 0
             then strip_padding d0 else d0).
  assert (H0 : (List.length d0 <= List.length base64)%nat)
    by apply filter_length_le.
  assert (H1 : (List.length d1 <= List.length d0)%nat).
  { unfold d1. destruct (_ =? 0); [apply strip_padding_length | lia]. }
  destruct (_ =? 1); [discriminate|].
  destruct (sextets d1) as [vs|] eqn:E; [|discriminate].
  cbn [bind]. intro H. injection H as <-.
  rewrite !length_map. pose proof (decode_sextets_length vs).
  rewrite (sextets_Some_length d1 vs E) in *. lia.
Qed.

Lemma decode_length_bound_witness :
  (4 * List.length [x01; x02; x03; xff] <= 3 * List.length (lit "AQID/w=="))%nat.
Proof.
  apply (decode_length_bound (lit "AQID/w==") [x01; x02; x03; xff]).
  reflexivity.
Defined.

(** ** The conversion of createBlob, on a common scale *)

Section PcmScaled.

(** Any exponent below both exponents serves for the comparison. *)
Lemma compare_fin_scale (m1 e1 m2 e2 E : Z) :
  E <= e1 -> E <= e2 ->
  compare_fin m1 e1 m2 e2 = (m1 * 2 ^ (e1 - E) ?= m2 * 2 ^ (e2 - E)).
Proof.
  intros H1 H2. unfold compare_fin.
  set (e := Z.min e1 e2).
  assert (He : E <= e) by (unfold e; lia).
  assert (He1 : e <= e1) by (unfold e; lia).
  assert (He2 : e <= e2) by (unfold e; lia).
  replace (e1 - E) with ((e1 - e) + (e - E)) by lia.
  replace (e2 - E) with ((e2 - e) + (e - E)) by lia.
  rewrite !Z.pow_add_r, !Z.mul_assoc by lia.
  apply Zmult_compare_compat_r. apply Z.lt_gt, Z.pow_pos_nonneg; lia.
Qed.

Lemma truncate_scale (m e E : Z) :
  E <= e -> E <= 0 ->
  truncate m e = Z.quot (m * 2 ^ (e - E)) (2 ^ (- E)).
Proof.
  intros H1 H2. unfold truncate.
  assert (HU : 0 < 2 ^ (- E)) by (apply Z.pow_pos_nonneg; lia).
  destruct (0 <=? e) eqn:He.
  - apply Z.leb_le in He.
    replace (e - E) with (e + - E) by lia.
    rewrite Z.pow_add_r, Z.mul_assoc by lia.
    rewrite Z.quot_mul by lia. reflexivity.
  - apply Z.leb_gt in He.
    replace (- E) with (- e + (e - E)) by lia.
    rewrite Z.pow_add_r by lia.
    rewrite Z.quot_mul_cancel_r; [reflexivity| |];
      apply Z.pow_nonzero; lia.
Qed.

Lemma pcm_sample_fin (m e : Z) :
  pcm_sample (Fin m e)
  = if ltb (Fin m e) (of_Z 1)
    then (if ltb (of_Z (-1)) (Fin m e)
          then ToInt16 (Fin (m * 32767) e) else -32767)
    else 32767.
Proof.
  unfold pcm_sample, Math_min. cbn [of_Z]. fold (of_Z 1).
  destruct (ltb (Fin m e) (of_Z 1)); [|reflexivity].
  unfold Math_max. fold (of_Z (-1)).
  destruct (ltb (of_Z (-1)) (Fin m e)); [|reflexivity].
  unfold of_Z. cbn [mul]. rewrite Z.add_0_r. reflexivity.
Qed.

(** The stored value of a finite sample [a / U], where [U] is a power of
    two and [a] an integer: the boundaries outside [-1, 1], and the
    quotient of [32767 * a] by [U], rounded toward zero, inside. *)
Lemma pcm_sample_scaled (m e E : Z) :
  E <= e -> E <= 0 ->
  pcm_sample (Fin m e)
  = let a := m * 2 ^ (e - E) in
    let U := 2 ^ (- E) in
    if a <? U then (if - U <? a then Z.quot (32767 * a) U else -32767)
    else 32767.
Proof.
  intros H1 H2. cbv zeta. rewrite pcm_sample_fin.
  assert (L1 : ltb (Fin m e) (of_Z 1) = (m * 2 ^ (e - E) <? 2 ^ (- E))).
  { unfold of_Z. cbn [ltb]. rewrite (compare_fin_scale m e 1 0 E) by lia.
    rewrite Z.mul_1_l, Z.sub_0_l. reflexivity. }
  assert (L2 : ltb (of_Z (-1)) (Fin m e) = (- 2 ^ (- E) <? m * 2 ^ (e - E))).
  { unfold of_Z. cbn [ltb]. rewrite (compare_fin_scale (-1) 0 m e E) by lia.
    rewrite Z.sub_0_l.
    replace (-1 * 2 ^ (- E)) with (- 2 ^ (- E)) by lia.
    reflexivity. }
  destruct (ltb (Fin m e) (of_Z 1)) eqn:E1; rewrite <- L1; [|reflexivity].
  destruct (ltb (of_Z (-1)) (Fin m e)) eqn:E2; rewrite <- L2; [|reflexivity].
  destruct (inside_bounds m e E1 E2) as [B0 B1].
  pose proof (truncate_scaled_bounds m e B0 B1) as Hb.
  rewrite ToInt16_small by lia.
  rewrite (truncate_scale (m * 32767) e E) by lia.
  f_equal. lia.
Qed.

Lemma quot_scaled_bounds (a U : Z) :
  0 < U -> - U < a < U ->
  (0 <= a -> Z.quot (32767 * a) U * U <= 32767 * a
                < (Z.quot (32767 * a) U + 1) * U
             /\ 0 <= Z.quot (32767 * a) U)
  /\ (a <= 0 -> (Z.quot (32767 * a) U - 1) * U < 32767 * a
                 <= Z.quot (32767 * a) U * U
               /\ Z.quot (32767 * a) U <= 0).
Proof.
  intros HU Ha. split; intro Hs.
  - pose proof (Z.quot_rem' (32767 * a) U) as Hq.
    pose proof (Z.rem_bound_pos (32767 * a) U ltac:(lia) HU) as Hr.
    pose proof (Z.quot_pos (32767 * a) U ltac:(lia) HU). nia.
  - pose proof (Z.quot_rem' (32767 * - a) U) as Hq.
    pose proof (Z.rem_bound_pos (32767 * - a) U ltac:(lia) HU) as Hr.
    pose proof (Z.quot_pos (32767 * - a) U ltac:(lia) HU) as Hp.
    replace (32767 * a) with (- (32767 * - a)) by lia.
    rewrite Z.quot_opp_l by lia. nia.
Qed.

End PcmScaled.

(** X4: a sample [m * 2^e] inside [-1, 1] is stored as 32767 times the
    sample, rounded toward zero: the stored value [v] has the sign of the
    sample and misses 32767 * sample by less than one. *)
Theorem pcm_sample_truncates (m e : Z) :
  e <= 0 -> - 2 ^ (- e) <= m <= 2 ^ (- e) ->
  let v := pcm_sample (Fin m e) in
  (0 <= m -> v * 2 ^ (- e) <= 32767 * m < (v + 1) * 2 ^ (- e) /\ 0 <= v)
  /\ (m <= 0 -> (v - 1) * 2 ^ (- e) < 32767 * m <= v * 2 ^ (- e) /\ v <= 0).
Proof.
  intros He Hm. cbv zeta.
  rewrite (pcm_sample_scaled m e e) by lia. cbv zeta.
  rewrite Z.sub_diag, Z.mul_1_r.
  set (U := 2 ^ (- e)) in *.
  assert (HU : 0 < U) by (apply Z.pow_pos_nonneg; lia).
  destruct (Z.ltb_spec m U) as [H1|H1].
  - destruct (Z.ltb_spec (- U) m) as [H2|H2].
    + apply quot_scaled_bounds; lia.
    + split; intro; lia.
  - split; intro; lia.
Qed.

Lemma pcm_sample_truncates_witness :
  pcm_sample (Fin 1 (-1)) * 2 ^ (- -1) <= 32767 * 1
    < (pcm_sample (Fin 1 (-1)) + 1) * 2 ^ (- -1)
  /\ 0 <= pcm_sample (Fin 1 (-1)).
Proof.
  exact (proj1 (pcm_sample_truncates 1 (-1) ltac:(lia) ltac:(cbn; lia))
               ltac:(lia)).
Defined.

(** X5: the conversion is odd: the sample of opposite sign is stored as
    the opposite value, for every sample (the values that are not
    numbers give 0, the infinities the two boundaries). *)
Theorem pcm_sample_opp (s : float) : pcm_sample (opp s) = - pcm_sample s.
Proof.
  destruct s as [|[|]|m e]; try reflexivity.
  cbn [opp].
  set (E := Z.min e 0).
  rewrite (pcm_sample_scaled m e E), (pcm_sample_scaled (- m) e E)
    by (unfold E; lia).
  cbv zeta. rewrite Z.mul_opp_l.
  set (a := m * 2 ^ (e - E)). set (U := 2 ^ (- E)).
  assert (HU : 0 < U) by (apply Z.pow_pos_nonneg; unfold E; lia).
  destruct (Z.ltb_spec a U), (Z.ltb_spec (- U) a),
    (Z.ltb_spec (- a) U), (Z.ltb_spec (- U) (- a)); try lia.
  replace (32767 * - a) with (- (32767 * a)) by lia.
  apply Z.quot_opp_l. lia.
Qed.

(** X6: the conversion keeps the order of the samples: a smaller sample
    is never stored as a larger value, so no sample wraps around. *)
Theorem pcm_sample_monotone (s1 s2 : float) :
  leb s1 s2 = true -> pcm_sample s1 <= pcm_sample s2.
Proof.
  intro H.
  pose proof (pcm_sample_range s1) as R1.
  pose proof (pcm_sample_range s2) as R2.
  destruct s1 as [|[|]|m1 e1]; try discriminate;
    destruct s2 as [|[|]|m2 e2]; try discriminate;
    try (change (pcm_sample (Inf true)) with (-32767) in *; lia);
    try (change (pcm_sample (Inf false)) with 32767 in *; lia).
  clear R1 R2.
  set (E := Z.min (Z.min e1 e2) 0).
  unfold leb in H. cbn [ltb] in H.
  rewrite (compare_fin_scale m2 e2 m1 e1 E) in H by (unfold E; lia).
  rewrite (pcm_sample_scaled m1 e1 E), (pcm_sample_scaled m2 e2 E)
    by (unfold E; lia).
  cbv zeta.
  set (a1 := m1 * 2 ^ (e1 - E)) in *. set (a2 := m2 * 2 ^ (e2 - E)) in *.
  set (U := 2 ^ (- E)).
  assert (HU : 0 < U) by (apply Z.pow_pos_nonneg; unfold E; lia).
  assert (Ha : a1 <= a2).
  { destruct (Z.compare_spec a2 a1); try discriminate; lia. }
  destruct (Z.ltb_spec a1 U), (Z.ltb_spec (- U) a1),
    (Z.ltb_spec a2 U), (Z.ltb_spec (- U) a2); try lia.
  - apply Z.quot_le_mono; lia.
  - destruct (quot_scaled_bounds a1 U HU ltac:(lia)) as [Hp Hn].
    destruct (Z.le_ge_cases 0 a1) as [Hs|Hs];
      [specialize (Hp Hs) | specialize (Hn Hs)]; nia.
  - destruct (quot_scaled_bounds a2 U HU ltac:(lia)) as [Hp Hn].
    destruct (Z.le_ge_cases 0 a2) as [Hs|Hs];
      [specialize (Hp Hs) | specialize (Hn Hs)]; nia.
Qed.

Lemma pcm_sample_monotone_witness :
  pcm_sample (Fin (-3) (-2)) <= pcm_sample (Fin 1 (-1)).
Proof. apply (pcm_sample_monotone (Fin (-3) (-2)) (Fin 1 (-1))). reflexivity. Defined.

Section PcmBytesOrder.

Lemma int16_values_cons (v : Z) (rest : list byte) :
  -32768 <= v <= 32767 ->
  int16_values (int16_bytes true v ++ rest) = v :: int16_values rest.
Proof.
  intro H. cbn [int16_bytes app int16_values]. cbv zeta.
  rewrite !byte_val_u8. f_equal.
  destruct (Z.leb_spec 32768 (v mod 256 + 256 * (v / 256 mod 256)));
    Z.div_mod_to_equations; lia.
Qed.

Lemma swap_pairs_cons (v : Z) (rest : list byte) :
  swap_pairs (int16_bytes true v ++ rest)
  = int16_bytes false v ++ swap_pairs rest.
Proof. reflexivity. Qed.

End PcmBytesOrder.

(** X7: on a little-endian host the bytes that [createBlob] encodes are
    the stored values as signed 16-bit little-endian numbers: reading
    them back gives the values of the samples one for one; on a
    big-endian host the two bytes of every sample are exchanged. *)
Theorem pcm_bytes_little_endian (data : list float) :
  int16_values (pcm_bytes true data) = map pcm_sample data
  /\ pcm_bytes false data = swap_pairs (pcm_bytes true data).
Proof.
  unfold pcm_bytes. cbv zeta. induction data as [|s data [IH1 IH2]].
  - split; reflexivity.
  - cbn [map flat_map]. split.
    + rewrite int16_values_cons, IH1; [reflexivity|].
      pose proof (pcm_sample_range s). lia.
    + rewrite swap_pairs_cons, IH2. reflexivity.
Qed.

(** ** writeString and the header of pcmToWav *)

Section Splice.

Lemma splice_firstn (view src t : list byte) (offset : nat) :
  (offset <= List.length view)%nat ->
  firstn (offset + List.length src) (firstn offset view ++ src ++ t)
  = firstn offset view ++ src.
Proof.
  intro H. rewrite app_assoc.
  replace (offset + List.length src)%nat
    with (List.length (firstn offset view ++ src))
    by (rewrite length_app, length_firstn; lia).
  rewrite firstn_app, Nat.sub_diag, firstn_all. cbn [firstn].
  apply app_nil_r.
Qed.

Lemma splice_skipn (view src t : list byte) (offset k : nat) :
  (offset <= List.length view)%nat ->
  skipn (offset + List.length src + k) (firstn offset view ++ src ++ t)
  = skipn k t.
Proof.
  intro H. rewrite app_assoc.
  assert (L : List.length (firstn offset view ++ src)
              = (offset + List.length src)%nat)
    by (rewrite length_app, length_firstn; lia).
  rewrite skipn_app, L.
  rewrite skipn_all2 by lia.
  replace (offset + List.length src + k - (offset + List.length src))%nat
    with k by lia.
  reflexivity.
Qed.

End Splice.

(** X8: [writeString] on a string that fits stores the low byte of every
    code unit from [offset] on and leaves the other bytes alone; a
    non-empty string that does not fit is a RangeError; the empty string
    changes nothing at any offset. *)
Theorem writeString_result (s : jsstring) (view : list byte) (offset : nat) :
  writeString view offset s
  = match s with
    | [] => Ok view
    | _ :: _ =>
        if (offset + List.length s <=? List.length view)%nat
        then Ok (firstn offset view ++ map u8 s
                 ++ skipn (offset + List.length s) view)
        else Throw RangeError
    end.
Proof.
  revert view offset. induction s as [|c rest IH]; intros view offset.
  - reflexivity.
  - cbn [writeString]. unfold setUint8, write.
    cbn [List.length].
    destruct (Nat.leb_spec (offset + 1) (List.length view)) as [H1|H1].
    + cbn [bind]. rewrite IH.
      set (v1 := firstn offset view ++ [u8 c] ++ skipn (offset + 1) view).
      assert (L1 : List.length v1 = List.length view).
      { unfold v1. rewrite !length_app, length_firstn, length_skipn.
        cbn [List.length]. lia. }
      destruct rest as [|c' rest'].
      * cbn [List.length map].
        replace (offset + 1 <=? List.length view)%nat with true
          by (symmetry; apply Nat.leb_le; lia).
        reflexivity.
      * rewrite L1.
        replace (S offset + List.length (c' :: rest'))%nat
          with (offset + S (List.length (c' :: rest')))%nat by lia.
        destruct (Nat.leb_spec (offset + S (List.length (c' :: rest')))
                    (List.length view)) as [H2|H2]; [|reflexivity].
        f_equal. unfold v1.
        replace (S offset) with (offset + List.length [u8 c])%nat
          by (cbn [List.length]; lia).
        rewrite splice_firstn by lia.
        replace (offset + S (List.length (c' :: rest')))%nat
          with (offset + List.length [u8 c] + List.length (c' :: rest'))%nat
          by (cbn [List.length]; lia).
        rewrite splice_skipn by lia.
        rewrite skipn_skipn.
        cbn [map]. rewrite <- !app_assoc. cbn [app List.length].
        rewrite (Nat.add_comm (S (List.length rest')) (offset + 1)).
        replace (offset + S (S (List.length rest')))%nat
          with (offset + 1 + S (List.length rest'))%nat by lia.
        reflexivity.
    + replace (offset + S (List.length rest) <=? List.length view)%nat
        with false by (symmetry; apply Nat.leb_gt; lia).
      reflexivity.
Qed.

Section HeaderSizes.

Lemma u32le_mod (v : Z) : u32le (v mod 2 ^ 32) = u32le v.
Proof.
  assert (E : forall x y, x mod 256 = y mod 256 -> u8 x = u8 y).
  { intros x y H. rewrite <- (u8_mod x), <- (u8_mod y), H. reflexivity. }
  unfold u32le. change (2 ^ 32) with 4294967296.
  f_equal; [|f_equal; [|f_equal; [|f_equal]]]; apply E;
    Z.div_mod_to_equations; lia.
Qed.

Lemma u32le_congruent (a b : Z) :
  a mod 2 ^ 32 = b mod 2 ^ 32 -> u32le a = u32le b.
Proof.
  intro H. rewrite <- (u32le_mod a), <- (u32le_mod b), H. reflexivity.
Qed.

Lemma toWav_spec_header (p : list byte) :
  firstn 44 (toWav_spec p 24000 1 16)
  = ascii_bytes "RIFF" ++ u32le (36 + Z.of_nat (List.length p))
    ++ ascii_bytes "WAVE" ++ ascii_bytes "fmt " ++ u32le 16 ++ u16le 1
    ++ u16le 1 ++ u32le 24000 ++ u32le (24000 * 1 * 16 / 8)
    ++ u16le (1 * 16 / 8) ++ u16le 16 ++ ascii_bytes "data"
    ++ u32le (Z.of_nat (List.length p)).
Proof. reflexivity. Qed.

Lemma header_data_size (p : list byte) :
  getUint32 (firstn 44 (toWav_spec p 24000 1 16)) 40
  = Z.of_nat (List.length p) mod 2 ^ 32.
Proof. apply (le_value_u32le (Z.of_nat (List.length p))). Qed.

End HeaderSizes.

(** X9: for every payload, whatever its length, [pcmToWav] returns
    44 + len bytes with the payload from offset 44 on, and the two size
    fields hold 36 + len and len modulo 2^32. *)
Theorem pcmToWav_sizes_modular (pcmData : list byte) :
  exists wav,
    pcmToWav pcmData = Ok (wav_blob wav)
    /\ List.length wav = (44 + List.length pcmData)%nat
    /\ skipn 44 wav = pcmData
    /\ getUint32 wav 4 = (36 + Z.of_nat (List.length pcmData)) mod 2 ^ 32
    /\ getUint32 wav 40 = Z.of_nat (List.length pcmData) mod 2 ^ 32.
Proof.
  exists (toWav_spec pcmData 24000 1 16).
  split; [apply pcmToWav_layout|].
  split; [apply toWav_spec_length|].
  split; [reflexivity|].
  apply toWav_spec_sizes.
Qed.

(** X10: the 44 header bytes depend on the payload through its length
    alone, and only modulo 2^32: two payloads get the same header
    exactly when their lengths are congruent modulo 2^32. *)
Theorem pcmToWav_header_by_length (a b : list byte) :
  exists wa wb,
    pcmToWav a = Ok (wav_blob wa) /\ pcmToWav b = Ok (wav_blob wb)
    /\ (firstn 44 wa = firstn 44 wb
        <-> Z.of_nat (List.length a) mod 2 ^ 32
            = Z.of_nat (List.length b) mod 2 ^ 32).
Proof.
  exists (toWav_spec a 24000 1 16), (toWav_spec b 24000 1 16).
  split; [apply pcmToWav_layout|]. split; [apply pcmToWav_layout|].
  split.
  - intro H. rewrite <- (header_data_size a), <- (header_data_size b), H.
    reflexivity.
  - intro H. rewrite !toWav_spec_header.
    rewrite (u32le_congruent _ _ H).
    rewrite (u32le_congruent (36 + Z.of_nat (List.length a))
               (36 + Z.of_nat (List.length b))); [reflexivity|].
    rewrite <- Z.add_mod_idemp_r, H, Z.add_mod_idemp_r by lia.
    reflexivity.
Qed.

(** ** The callbacks, event by event *)

Section Deliveries.

Variable littleEndian : bool.

Lemma onmessage_ok (m : LiveServerMessage) (r : request) :
  throws m = false ->
  exists r',
    onmessage m r = Ok r'
    /\ audioChunks r' = audioChunks r ++ chunk_of m
    /\ settled r' = settled r
    /\ sent r' = sent r
    /\ closeRequested r'
       = closeRequested r || completes_turn (Message m).
Proof.
  unfold throws, chunk_of, completes_turn, onmessage.
  unfold throws.
  destruct (base64Audio m) as [[[|c s]|]|e]; try discriminate; cbn [bind].
  - intros _. rewrite app_nil_r.
    destruct (serverContent m) as [[mt [[|]|]]|]; eexists;
      (split; [reflexivity|]); cbn; rewrite ?orb_false_r, ?orb_true_r;
      repeat split.
  - destruct (decode (c :: s)) as [chunk|e]; try discriminate. intros _.
    cbn [bind].
    destruct (serverContent m) as [[mt [[|]|]]|]; eexists;
      (split; [reflexivity|]); cbn; rewrite ?orb_false_r, ?orb_true_r;
      repeat split.
  - intros _. rewrite app_nil_r.
    destruct (serverContent m) as [[mt [[|]|]]|]; eexists;
      (split; [reflexivity|]); cbn; rewrite ?orb_false_r, ?orb_true_r;
      repeat split.
Qed.

Lemma onmessage_throws (m : LiveServerMessage) (r : request) :
  throws m = true ->
  (exists e, onmessage m r = Throw e)
  /\ chunk_of m = [] /\ completes_turn (Message m) = false.
Proof.
  unfold throws, chunk_of, completes_turn, onmessage.
  unfold throws.
  destruct (base64Audio m) as [[[|c s]|]|e]; try discriminate; cbn [bind].
  - destruct (decode (c :: s)) as [chunk|e]; try discriminate. intros _.
    cbn [bind]. split; [eexists; reflexivity|]. split; [reflexivity|].
    destruct (serverContent m) as [[mt [[|]|]]|]; reflexivity.
  - intros _. split; [eexists; reflexivity|]. split; [reflexivity|].
    destruct (serverContent m) as [[mt [[|]|]]|]; reflexivity.
Qed.

Lemma onopen_priming (r : request) :
  onopen littleEndian r = Ok (sendRealtimeInput priming r).
Proof.
  unfold onopen. rewrite createBlob_ok, silence_bytes. reflexivity.
Qed.

Lemma onclose_ok (r : request) :
  exists o, onclose r = Ok (settle o r).
Proof.
  unfold onclose. destruct (0 <? List.length (audioChunks r))%nat.
  - rewrite fullAudio_concat. cbn [bind]. rewrite pcmToWav_layout.
    cbn [bind]. eexists. reflexivity.
  - eexists. reflexivity.
Qed.

Lemma settle_fields (o : outcome) (r : request) :
  audioChunks (settle o r) = audioChunks r
  /\ sent (settle o r) = sent r
  /\ closeRequested (settle o r) = closeRequested r
  /\ (forall o', settled r = Some o' -> settled (settle o r) = Some o')
  /\ (settled r = None -> settled (settle o r) = Some o).
Proof.
  unfold settle. destruct (settled r) as [o0|] eqn:E; cbn.
  - rewrite E. repeat split; congruence.
  - repeat split; congruence.
Qed.

(** What one delivery does to each part of the request. *)
Lemma deliver_fields (st : request * list exn) (ev : event) :
  audioChunks (fst (deliver littleEndian st ev))
  = audioChunks (fst st) ++ chunks_of_event ev
  /\ sent (fst (deliver littleEndian st ev))
     = sent (fst st) ++ (if is_open ev then [priming] else [])
  /\ closeRequested (fst (deliver littleEndian st ev))
     = closeRequested (fst st) || completes_turn ev
  /\ (forall o, settled (fst st) = Some o ->
                settled (fst (deliver littleEndian st ev)) = Some o).
Proof.
  destruct st as [r log]. unfold deliver, callback. cbn [fst snd].
  destruct ev as [|m| |msg].
  - rewrite onopen_priming. cbn. rewrite app_nil_r, orb_false_r.
    repeat split. intros o H. exact H.
  - destruct (throws m) eqn:T.
    + destruct (onmessage_throws m r T) as [[e ->] [C D]].
      cbn [fst chunks_of_event is_open].
      rewrite C, D, !app_nil_r, orb_false_r. repeat split.
      intros o H. exact H.
    + destruct (onmessage_ok m r T) as [r' [-> [A [S [N D]]]]].
      cbn [fst chunks_of_event is_open].
      rewrite A, S, N, D, app_nil_r. repeat split. intros o H. exact H.
  - destruct (onclose_ok r) as [o ->]. cbn [fst chunks_of_event is_open].
    destruct (settle_fields o r) as [A [N [D [S _]]]].
    rewrite A, N, D, !app_nil_r. cbn. rewrite orb_false_r. repeat split.
    exact S.
  - unfold onerror, reject. cbn [fst chunks_of_event is_open].
    destruct (settle_fields
                (Rejected (lit "A connection error occurred: " ++ msg)) r)
      as [A [N [D [S _]]]].
    rewrite A, N, D, !app_nil_r. cbn. rewrite orb_false_r. repeat split.
    exact S.
Qed.

Lemma feed_fields (evs : list event) (st : request * list exn) :
  audioChunks (fst (feed littleEndian st evs))
  = audioChunks (fst st) ++ flat_map chunks_of_event evs
  /\ sent (fst (feed littleEndian st evs))
     = sent (fst st) ++ repeat priming (List.length (filter is_open evs))
  /\ closeRequested (fst (feed littleEndian st evs))
     = closeRequested (fst st) || existsb completes_turn evs
  /\ (forall o, settled (fst st) = Some o ->
                settled (fst (feed littleEndian st evs)) = Some o).
Proof.
  revert st. induction evs as [|ev evs IH]; intro st.
  - cbn. rewrite !app_nil_r, orb_false_r. repeat split. intros o H. exact H.
  - change (feed littleEndian st (ev :: evs))
      with (feed littleEndian (deliver littleEndian st ev) evs).
    destruct (IH (deliver littleEndian st ev)) as [A [N [D S]]].
    destruct (deliver_fields st ev) as [A1 [N1 [D1 S1]]].
    rewrite A, N, D, A1, N1, D1. cbn [flat_map filter existsb].
    repeat split.
    + rewrite <- app_assoc. reflexivity.
    + rewrite <- app_assoc. destruct (is_open ev); reflexivity.
    + rewrite orb_assoc. reflexivity.
    + intros o H. apply S, S1, H.
Qed.

End Deliveries.

Section Runs.

Variable littleEndian : bool.

Lemma run_app (evs1 evs2 : list event) :
  run littleEndian (evs1 ++ evs2)
  = feed littleEndian (run littleEndian evs1) evs2.
Proof. unfold run, feed. apply fold_left_app. Qed.

Lemma deliver_settled_same (st : request * list exn) (ev : event) :
  ev <> Close -> (forall msg, ev <> Error msg) ->
  settled (fst (deliver littleEndian st ev)) = settled (fst st).
Proof.
  intros H1 H2. destruct st as [r log]. unfold deliver, callback.
  cbn [fst snd]. destruct ev as [|m| |msg]; try congruence.
  - rewrite onopen_priming. reflexivity.
  - destruct (throws m) eqn:T.
    + destruct (onmessage_throws m r T) as [[e ->] _]. reflexivity.
    + destruct (onmessage_ok m r T) as [r' [-> [_ [S _]]]]. exact S.
Qed.

Lemma deliver_close (st : request * list exn) :
  settled (fst st) = None ->
  settled (fst (deliver littleEndian st Close))
  = Some (match audioChunks (fst st) with
          | [] => Rejected no_audio_message
          | _ :: _ =>
              Resolved (wav_blob (toWav_spec
                                    (List.concat (audioChunks (fst st)))
                                    24000 1 16))
          end).
Proof.
  intro H. destruct st as [r log]. unfold deliver, callback.
  cbn [fst snd] in *.
  destruct (audioChunks r) as [|c cs] eqn:E.
  - destruct (onclose_empty r E H) as [r' [-> S]]. exact S.
  - destruct (onclose_chunks r) as [r' [-> [_ S]]]; [congruence|exact H|].
    cbn [fst]. rewrite S, E. reflexivity.
Qed.

Lemma deliver_error (st : request * list exn) (msg : jsstring) :
  settled (fst st) = None ->
  settled (fst (deliver littleEndian st (Error msg)))
  = Some (Rejected (lit "A connection error occurred: " ++ msg)).
Proof.
  intro H. destruct st as [r log]. unfold deliver, callback, onerror, reject.
  cbn [fst snd] in *. apply settle_fields, H.
Qed.

Lemma feed_decided (evs : list event) (st : request * list exn) :
  settled (fst st) = None ->
  settled (fst (feed littleEndian st evs))
  = decided (audioChunks (fst st)) evs.
Proof.
  revert st. induction evs as [|ev evs IH]; intros st H; [exact H|].
  change (feed littleEndian st (ev :: evs))
    with (feed littleEndian (deliver littleEndian st ev) evs).
  destruct (deliver_fields littleEndian st ev) as [A _].
  destruct ev as [|m| |msg]; cbn [decided].
  - rewrite IH, A; [reflexivity|].
    rewrite deliver_settled_same; [exact H|discriminate|discriminate].
  - rewrite IH, A; [reflexivity|].
    rewrite deliver_settled_same; [exact H|discriminate|discriminate].
  - apply feed_fields, deliver_close, H.
  - apply feed_fields, deliver_error, H.
Qed.

Lemma run_decided (evs : list event) :
  settled (fst (run littleEndian evs)) = decided [] evs.
Proof.
  unfold run. apply (feed_decided evs (start, [])). reflexivity.
Qed.

Lemma whitespace_decodes_empty (s : jsstring) :
  Forall (fun c => is_ascii_whitespace c = true) s -> decode s = Ok [].
Proof.
  intro H. unfold decode, atob.
  replace (filter (fun c => negb (is_ascii_whitespace c)) s) with (@nil Z).
  - reflexivity.
  - symmetry. induction H as [|c s Hc _ IH]; [reflexivity|].
    cbn [filter]. rewrite Hc. exact IH.
Qed.

End Runs.

(** X11: the assembly loop of [onclose] never writes out of range: for
    every list of chunks, empty chunks and the empty list included, it
    returns their concatenation in order, whose length is the sum of
    the chunk lengths. *)
Theorem fullAudio_flattens (chunks : list (list byte)) :
  fullAudio chunks = Ok (List.concat chunks)
  /\ List.length (List.concat chunks)
     = list_sum (map (@List.length byte) chunks).
Proof.
  split; [apply fullAudio_concat|].
  induction chunks as [|c chunks IH]; [reflexivity|].
  cbn [List.concat map list_sum]. rewrite length_app, IH. reflexivity.
Qed.

(** X12: the promise settles once: whatever was decided after some
    events stays the outcome after any further events. *)
Theorem settled_once (littleEndian : bool) (evs1 evs2 : list event)
  (o : outcome) :
  settled (fst (run littleEndian evs1)) = Some o ->
  settled (fst (run littleEndian (evs1 ++ evs2))) = Some o.
Proof.
  intro H. rewrite run_app. apply feed_fields, H.
Qed.

Lemma settled_once_witness :
  settled (fst (run true ([Open; Close] ++ [Message (audio_message (lit "AQID") None); Close])))
  = Some (Rejected no_audio_message).
Proof.
  apply (settled_once true [Open; Close]). reflexivity.
Defined.

(** X13: the accumulator holds exactly the chunks decoded from the
    messages, in the order of the messages: no other event changes it,
    and a message whose payload is absent, empty or refused by [decode]
    adds nothing. *)
Theorem audioChunks_of_run (littleEndian : bool) (evs : list event) :
  audioChunks (fst (run littleEndian evs)) = flat_map chunks_of_event evs.
Proof.
  unfold run. apply (feed_fields littleEndian evs (start, [])).
Qed.


(** X15: the client asks the session to close exactly when it has
    processed a message with the turn-complete flag without an
    exception; a turn-complete message on which [onmessage] throws does
    not lead to a close. *)
Theorem closeRequested_of_run (littleEndian : bool) (evs : list event) :
  closeRequested (fst (run littleEndian evs)) = existsb completes_turn evs.
Proof.
  unfold run. apply (feed_fields littleEndian evs (start, [])).
Qed.

(** X16: the only thing ever sent to the session is the priming blob,
    the text of 320 zero bytes typed audio/pcm;rate=16000, once for
    each open event. *)
Theorem sent_of_run (littleEndian : bool) (evs : list event) :
  sent (fst (run littleEndian evs))
  = repeat priming (List.length (filter is_open evs))
  /\ decode (media_data priming) = Ok (repeat x00 320).
Proof.
  split.
  - unfold run. apply (feed_fields littleEndian evs (start, [])).
  - apply decode_encode_bytes.
Qed.

(** X17: a payload made of ASCII whitespace only is not empty for
    [onmessage]: it decodes to a chunk of no bytes, which is appended,
    and the close then resolves with a WAV of the 44 header bytes and no
    audio instead of rejecting. *)
Theorem whitespace_payload_resolves (littleEndian : bool) (s : jsstring)
  (done : option bool) :
  s <> [] -> Forall (fun c => is_ascii_whitespace c = true) s ->
  settled (fst (run littleEndian (chunk_session [(s, done)])))
  = Some (Resolved (wav_blob (toWav_spec [] 24000 1 16)))
  /\ List.length (toWav_spec [] 24000 1 16) = 44%nat.
Proof.
  intros Hne Hw. split; [|reflexivity].
  rewrite run_decided.
  unfold chunk_session. cbn [map app decided fst snd audioChunks start].
  unfold chunk_of. cbn.
  destruct s as [|c s]; [congruence|].
  rewrite (whitespace_decodes_empty (c :: s) Hw). reflexivity.
Qed.

Lemma whitespace_payload_resolves_witness :
  settled (fst (run true (chunk_session [(lit " ", None)])))
  = Some (Resolved (wav_blob (toWav_spec [] 24000 1 16)))
  /\ List.length (toWav_spec [] 24000 1 16) = 44%nat.
Proof.
  apply (whitespace_payload_resolves true (lit " ") None).
  - discriminate.
  - repeat constructor.
Defined.

(** ** The component *)

Section Component.

Import App.

Lemma trimStart_nil (s : jsstring) :
  trimStart s = [] <-> forallb is_white s = true.
Proof.
  induction s as [|c s IH]; cbn [trimStart forallb]; [tauto|].
  destruct (is_white c); cbn [andb]; [exact IH|].
  split; discriminate.
Qed.

Lemma trimStart_head (s : jsstring) (c : Z) (r : jsstring) :
  trimStart s = c :: r -> is_white c = false.
Proof.
  induction s as [|x s IH]; cbn [trimStart]; [discriminate|].
  destruct (is_white x) eqn:E; [exact IH|].
  intro H. injection H as <- _. exact E.
Qed.

Lemma forallb_rev {A : Type} (f : A -> bool) (l : list A) :
  forallb f (rev l) = forallb f l.
Proof.
  destruct (forallb f l) eqn:E.
  - apply forallb_forall. intros x Hx. apply in_rev in Hx.
    rewrite forallb_forall in E. apply E, Hx.
  - destruct (forallb f (rev l)) eqn:E'; [|reflexivity].
    rewrite <- E. symmetry. apply forallb_forall. intros x Hx.
    rewrite forallb_forall in E'. apply E', in_rev.
    rewrite rev_involutive. exact Hx.
Qed.

(** The trimmed text is empty exactly when every code unit is white. *)
Lemma trim_nil (s : jsstring) : trim s = [] <-> forallb is_white s = true.
Proof.
  unfold trim. split.
  - intro H. apply (f_equal (@rev Z)) in H. rewrite rev_involutive in H.
    cbn [rev] in H. apply trimStart_nil in H. rewrite forallb_rev in H.
    destruct (trimStart s) as [|c r] eqn:E; [apply trimStart_nil, E|].
    cbn [forallb] in H. rewrite (trimStart_head s c r E) in H. discriminate.
  - intro H. apply trimStart_nil in H. rewrite H. reflexivity.
Qed.

Lemma act_invariant (u : ui) (a : action) :
  settled_invariant u -> settled_invariant (act u a).
Proof.
  unfold settled_invariant. intros [I1 [I2 I3]].
  destruct u as [st t n]. cbn [view inflight timers] in *.
  destruct a as [[f|]| |v| |s|]; cbn [act view inflight timers].
  - cbn. tauto.
  - cbn. tauto.
  - destruct t; cbn; tauto.
  - cbn. tauto.
  - unfold handleGenerateAudio.
    destruct (trim (textToSpeak st)); [cbn; rewrite Nat.add_0_r; tauto|].
    destruct (isGenerating st) eqn:G; cbn [view inflight].
    + rewrite G, Nat.add_0_r. tauto.
    + cbn. subst n. tauto.
  - destruct n as [|n]; [cbn; tauto|].
    destruct (isGenerating st) eqn:G; [|discriminate].
    injection I1 as ->. destruct (I2 eq_refl) as [Ha He].
    destruct s as [url|err]; cbn; rewrite ?Ha, ?He;
      repeat split; auto; discriminate.
  - cbn. repeat split; [exact I1 | apply I2; assumption | right; reflexivity].
Qed.


End Component.

(** X18: [handleGenerateAudio] calls the service exactly when the text
    has a code unit that [trim] keeps and no generation is under way;
    otherwise it leaves the state as it is. *)
Theorem handleGenerateAudio_guard (st : App.state) :
  snd (App.handleGenerateAudio st)
  = negb (forallb App.is_white (App.textToSpeak st))
    && negb (App.isGenerating st)
  /\ (snd (App.handleGenerateAudio st) = false ->
      fst (App.handleGenerateAudio st) = st).
Proof.
  unfold App.handleGenerateAudio.
  destruct (App.trim (App.textToSpeak st)) as [|c r] eqn:E.
  - apply trim_nil in E. rewrite E. split; reflexivity.
  - assert (W : forallb App.is_white (App.textToSpeak st) = false).
    { destruct (forallb App.is_white (App.textToSpeak st)) eqn:F;
        [|reflexivity].
      apply trim_nil in F. congruence. }
    rewrite W. destruct (App.isGenerating st); split; try reflexivity.
    discriminate.
Qed.


Section EndToEnd.

Import App.

Lemma generate_called (promise : option outcome) (st : state) :
  forallb is_white (textToSpeak st) = false -> isGenerating st = false ->
  generate promise st
  = match promise with
    | Some o =>
        handleGenerateAudio_settled (settlement_of o)
          (setAudioUrl None (setError None (setIsGenerating true st)))
    | None => setAudioUrl None (setError None (setIsGenerating true st))
    end.
Proof.
  intros W G. unfold generate, handleGenerateAudio.
  destruct (trim (textToSpeak st)) as [|c r] eqn:E.
  - apply trim_nil in E. congruence.
  - rewrite G. reflexivity.
Qed.

End EndToEnd.



(** X21: without a usable key (absent, empty or the placeholder), a
    click on a non-blank text ends with "Error generating audio: Please
    provide your Gemini API key in index.html.", no audio, and nothing
    sent to any session, whatever events a session would deliver. *)
Theorem generate_missing_key (st : App.state) (key : option jsstring)
  (littleEndian : bool) (evs : list event) :
  forallb App.is_white (App.textToSpeak st) = false ->
  App.isGenerating st = false ->
  key = None \/ key = Some [] \/ key = Some (lit "YOUR_GEMINI_API_KEY") ->
  let r := fst (generateAudioFromText key littleEndian evs) in
  let st' := App.generate (settled r) st in
  App.error st'
  = Some (lit "Error generating audio: Please provide your Gemini API key in index.html.")
  /\ App.audioUrl st' = None
  /\ App.isGenerating st' = false
  /\ sent r = [] /\ audioChunks r = [].
Proof.
  intros W G K. cbv zeta.
  assert (E : generateAudioFromText key littleEndian evs
              = (reject missing_key_message start, [])).
  { destruct K as [->|[->| ->]]; reflexivity. }
  rewrite E. cbn [fst]. rewrite generate_called by assumption.
  repeat split.
Qed.

Lemma generate_missing_key_witness :
  App.error
    (App.generate
       (settled (fst (generateAudioFromText None true [Open; Close])))
       (App.setTextToSpeak (lit "hello") App.initial))
  = Some (lit "Error generating audio: Please provide your Gemini API key in index.html.").
Proof.
  exact (proj1 (generate_missing_key
                  (App.setTextToSpeak (lit "hello") App.initial) None true
                  [Open; Close] eq_refl eq_refl (or_introl eq_refl))).
Defined.

Section Page.

Import App.

Lemma step_settled_invariant (u : ui) (a : action) :
  settled_invariant u -> settled_invariant (step u a).
Proof.
  intro H. unfold step. destruct (enabled u a); [|exact H].
  apply act_invariant, H.
Qed.

Lemma step_page_invariant (u : ui) (a : action) :
  settled_invariant u -> page_invariant u -> page_invariant (step u a).
Proof.
  unfold page_invariant, step. cbv zeta. intros [I1 _] [T [A [V B]]].
  destruct (enabled u a) eqn:En; [|tauto].
  destruct u as [st t n]. cbn [view timers inflight] in *.
  unfold enabled in En. cbv zeta in En. cbn [view] in En.
  destruct a as [[f|]| |v| |s|]; cbn [act view timers inflight].
  - apply negb_true_iff in En. rewrite En in T. subst t. cbn.
    repeat split; try tauto; try discriminate.
  - cbn. rewrite Nat.add_0_r. tauto.
  - destruct t as [|t]; [cbn; tauto|].
    destruct (isAnalyzing st) eqn:E; [|discriminate].
    injection T as ->. cbn.
    repeat split; try discriminate; try tauto.
  - apply andb_true_iff in En. destruct En as [_ G].
    apply negb_true_iff in G. cbn.
    repeat split; try tauto. intro G'. congruence.
  - apply andb_true_iff in En. destruct En as [En Bl].
    apply andb_true_iff in En. destruct En as [Va G].
    apply negb_true_iff in G, Bl.
    unfold handleGenerateAudio. unfold blank in Bl.
    destruct (trim (textToSpeak st)) as [|c r] eqn:E; [discriminate|].
    rewrite G. cbn. unfold blank. rewrite E.
    repeat split; try tauto.
  - destruct n as [|n]; [cbn; tauto|].
    destruct (isGenerating st) eqn:G; [|discriminate].
    assert (F : videoFile st <> None) by tauto.
    destruct s as [url|err]; cbn; repeat split; try tauto; discriminate.
  - cbn. repeat split; tauto.
Qed.

Lemma through_page_invariants (actions : list action) :
  settled_invariant (through_page actions)
  /\ page_invariant (through_page actions).
Proof.
  unfold through_page.
  assert (H : forall u, settled_invariant u /\ page_invariant u ->
                        settled_invariant (fold_left step actions u)
                        /\ page_invariant (fold_left step actions u)).
  { induction actions as [|a actions IH]; intros u Hu; [exact Hu|].
    cbn [fold_left]. apply IH. destruct Hu as [H1 H2]. split.
    - apply step_settled_invariant, H1.
    - apply step_page_invariant; assumption. }
  apply H. split.
  - unfold settled_invariant, mounted, initial. cbn. auto.
  - unfold page_invariant, mounted, initial. cbn.
    repeat split; try discriminate.
    intros [H0|[H0|[H0|[H0|H0]]]]; try discriminate; congruence.
Qed.

End Page.

(** X22: when the component is driven through the page, where disabled
    controls ignore the user, one analysis timer is pending exactly
    while [isAnalyzing] is set, the voice is never shown as analyzed
    during an analysis, a generation runs only on a non-blank text, and
    the service is never called, nor an audio or an error shown, before
    a video has been chosen. *)
Theorem page_discipline (actions : list App.action) :
  let u := App.through_page actions in
  let st := App.view u in
  App.timers u = (if App.isAnalyzing st then 1 else 0)%nat
  /\ (App.isAnalyzing st = true -> App.voiceAnalyzed st = false)
  /\ (App.isGenerating st = true -> App.blank (App.textToSpeak st) = false)
  /\ ((0 < App.inflight u)%nat \/ App.voiceAnalyzed st = true
      \/ App.audioUrl st <> None \/ App.error st <> None ->
      App.videoFile st <> None).
Proof.
  cbv zeta.
  destruct (through_page_invariants actions) as [[I1 _] [T [A [V B]]]].
  cbv zeta in *. repeat split; try assumption.
  intros [H|H]; [|tauto].
  apply V. right. right. left.
  destruct (App.isGenerating (App.view (App.through_page actions)));
    [reflexivity | rewrite I1 in H; inversion H].
Qed.
